(** * rota-app-free.py: closed-tour routing over a road network

    A shallow embedding of the script [rota-app-free.py].  The script maps
    geocoded waypoints to graph nodes, fills a matrix of truncated
    shortest-path lengths, asks the routing solver for a closed tour and
    stitches the per-leg shortest paths into one node sequence whose length
    it recomputes edge by edge.

    The road graph [G], the shortest-path routines of the graph library and
    the routing solver are external to the script.  They are the variables of
    [Section Script]; what the script does with their answers is modelled
    line by line.  A Python float is modelled by the rational it denotes
    (every finite float is a rational), so [int(x)], [min] and comparisons
    are exact; the script's own float additions and its division round, and
    are the operations of a [float_ops] the model is given. *)

From Stdlib Require Import ZArith QArith Qround Qabs Lia Lqa String.
From stdpp Require Import base tactics option list.

Local Open Scope Z_scope.

(** ** Data model *)

(** OSM node identifiers are integers. *)
Definition node : Type := Z.

(** A geocoded point, [(lat, lon)]. *)
Definition coord : Type := (Q * Q)%type.

(** The attribute dictionary of one edge; the script reads only ['length']. *)
Record edge_attr : Type := EdgeAttr { attr_length : Q }.

(** The float arithmetic the script performs itself: [x + y] and [x / y]
    on floats, each the float the machine rounds the exact result to. *)
Record float_ops : Type := FloatOps {
  fadd : Q → Q → Q;
  fdiv : Q → Q → Q
}.

(** Lines the script writes to standard output. *)
Inductive line : Type :=
| LRotaOtimizada
| LParada (i : nat) (endereco : string)
| LGeocodificacao
| LCoordenada (k : nat) (lat lon : Q)
| LNaoFoiPossivel
| LDistancia (km : Q).

(** Observable actions of a run: calls into the graph library and prints. *)
Inductive event : Type :=
| NearestNodes (lon lat : Q)
| ShortestPathLength (a b : node)
| ShortestPath (a b : node)
| GetEdgeData (u v : node)
| Print (l : line).

(** Exceptions that end the script.  [OutOfFuel] is not a Python exception:
    it marks a run of the [while] loop that exceeded the budget given to the
    model. *)
Inductive exn : Type :=
| NetworkXNoPath (a b : node)
| IndexError
| TypeError
| OutOfFuel.


(** ** The script monad: a trace of events and a result or an exception *)

Definition M (A : Type) : Type := (list event * (exn + A))%type.

Definition ret {A} (a : A) : M A := ([], inr a).

Definition raise {A} (e : exn) : M A := ([], inl e).

Definition bind {A B} (m : M A) (f : A → M B) : M B :=
  match m with
  | (t, inl e) => (t, inl e)
  | (t, inr a) => (t ++ fst (f a), snd (f a))
  end.

Definition emit (e : event) : M unit := ([e], inr tt).

Definition trace {A} (m : M A) : list event := fst m.
Definition result {A} (m : M A) : exn + A := snd m.

#[global] Instance M_ret : MRet M := @ret.
#[global] Instance M_bind : MBind M := λ A B f m, bind m f.

(** [for x in xs: acc = body(acc, x)] *)
Fixpoint foldM {A B} (body : A → B → M A) (acc : A) (xs : list B) : M A :=
  match xs with
  | [] => ret acc
  | x :: xs' => acc' ← body acc x; foldM body acc' xs'
  end.

(** [[f(x) for x in xs]] *)
Fixpoint forM {A B} (f : A → M B) (xs : list A) : M (list B) :=
  match xs with
  | [] => ret []
  | x :: xs' => y ← f x; ys ← forM f xs'; ret (y :: ys)
  end.

(** [xs[i]] for a non-negative index. *)
Definition getitem {A} (xs : list A) (i : nat) : M A :=
  match xs !! i with
  | Some x => ret x
  | None => raise IndexError
  end.

(** [int(x)] on a float: truncation toward zero. *)
Definition int (x : Q) : Z := Z.quot (Qnum x) (Z.pos (Qden x)).

(** [min(d['length'] for d in dados.values())] on a non-empty dictionary:
    the first smallest value. *)
Definition min_length (d : edge_attr) (ds : list edge_attr) : Q :=
  fold_left (λ m x, if Qle_bool m (attr_length x) then m else attr_length x)
            ds (attr_length d).

(** ** The routing index manager for one vehicle with depot 0

    [RoutingIndexManager(n, 1, 0)] numbers the [n] nodes [0 .. n-1] by
    themselves and gives the vehicle's end the extra index [n], which maps
    back to node 0. *)
Module Routing.
Definition Start : nat := 0%nat.
Definition End (n : nat) : nat := n.
Definition IsEnd (n index : nat) : bool := (n <=? index)%nat.
Definition IndexToNode (n index : nat) : nat :=
  if (index <? n)%nat then index else 0%nat.
End Routing.

(** A solution of the solver, read through [solution.Value(routing.NextVar(i))]. *)
Definition assignment : Type := nat → nat.

Section Script.

(** [ox.distance.nearest_nodes(G, lon, lat)] *)
Variable nearest_nodes : Q → Q → node.
(** [nx.shortest_path_length(G, a, b, weight='length')]; [None] when the
    library raises [NetworkXNoPath]. *)
Variable shortest_path_length : node → node → option Q.
(** [nx.shortest_path(G, a, b, weight='length')] *)
Variable shortest_path : node → node → option (list node).
(** [G.get_edge_data(u, v)]: the attribute dictionaries of the parallel
    edges from [u] to [v], [None] when there is no such edge. *)
Variable get_edge_data : node → node → option (list edge_attr).
(** Float addition and division as the machine does them. *)
Variable fl : float_ops.
(** [routing.SolveWithParameters(search_parameters)] for the model built
    from a matrix. *)
Variable SolveWithParameters : list (list Z) → option assignment.

(** *** Step 4: waypoints to graph nodes *)

Definition nos_de (coordenadas : list coord) : M (list node) :=
  forM (λ c : coord, let (lat, lon) := c in
                     _ ← emit (NearestNodes lon lat);
                     ret (nearest_nodes lon lat))
       coordenadas.

(** *** Step 5: the distance matrix *)

Definition call_shortest_path_length (a b : node) : M Q :=
  _ ← emit (ShortestPathLength a b);
  match shortest_path_length a b with
  | Some d => ret d
  | None => raise (NetworkXNoPath a b)
  end.

(** [matriz[i][j] = v] *)
Definition setitem2 (matriz : list (list Z)) (i j : nat) (v : Z)
  : M (list (list Z)) :=
  match matriz !! i with
  | Some row =>
      if decide (j < length row)%nat
      then ret (<[i := <[j := v]> row]> matriz)
      else raise IndexError
  | None => raise IndexError
  end.

Definition matriz_cell (nos : list node) (i : nat)
           (matriz : list (list Z)) (j : nat) : M (list (list Z)) :=
  if decide (i ≠ j) then
    a ← getitem nos i;
    b ← getitem nos j;
    d ← call_shortest_path_length a b;
    setitem2 matriz i j (int d)
  else ret matriz.

Definition matriz_row (nos : list node) (n : nat)
           (matriz : list (list Z)) (i : nat) : M (list (list Z)) :=
  foldM (matriz_cell nos i) matriz (seq 0 n).

Definition matriz_de (nos : list node) : M (list (list Z)) :=
  let n := length nos in
  foldM (matriz_row nos n) (replicate n (replicate n 0)) (seq 0 n).

(** *** Step 6: the tour *)

(** The [while not routing.IsEnd(index)] loop. *)
Fixpoint walk (fuel n : nat) (solution : assignment) (index : nat)
         (rota : list nat) : M (list nat) :=
  if Routing.IsEnd n index then ret rota
  else match fuel with
       | O => raise OutOfFuel
       | S fuel' =>
           walk fuel' n solution (solution index)
                (rota ++ [Routing.IndexToNode n index])
       end.

Definition resolver_tsp (fuel : nat) (matriz : list (list Z))
  : M (option (list nat)) :=
  match SolveWithParameters matriz with
  | Some solution =>
      rota ← walk fuel (length matriz) solution Routing.Start [];
      inicio ← getitem rota 0;
      ret (Some (rota ++ [inicio]))
  | None => ret None
  end.

(** *** Step 8: the assembled route and its length *)

Definition call_shortest_path (a b : node) : M (list node) :=
  _ ← emit (ShortestPath a b);
  match shortest_path a b with
  | Some p => ret p
  | None => raise (NetworkXNoPath a b)
  end.

(** [if rota_final and path[0] == rota_final[-1]: path = path[1:]] *)
Definition seam (rota_final path : list node) : M (list node) :=
  match last rota_final with
  | None => ret path
  | Some u =>
      p0 ← getitem path 0;
      if decide (p0 = u) then ret (tail path) else ret path
  end.

Definition leg (rota_nos : list node) (rota_final : list node) (i : nat)
  : M (list node) :=
  a ← getitem rota_nos i;
  b ← getitem rota_nos (i + 1);
  path ← call_shortest_path a b;
  path' ← seam rota_final path;
  ret (rota_final ++ path').

Definition rota_final_de (rota_nos : list node) : M (list node) :=
  foldM (leg rota_nos) [] (seq 0 (length rota_nos - 1)).

(** One turn of the distance loop. *)
Definition soma_aresta (total : Q) (uv : node * node) : M Q :=
  let (u, v) := uv in
  _ ← emit (GetEdgeData u v);
  match get_edge_data u v with
  | Some (d :: ds) => ret (fadd fl total (min_length d ds))
  | Some [] | None => ret total
  end.

Definition distancia_de (rota_final : list node) : M Q :=
  foldM soma_aresta 0%Q (zip (removelast rota_final) (tail rota_final)).

End Script.

(** ** The script, steps 4 to 8

    The geocoded [coordenadas] (steps 1 to 3) are inputs; the plotting that
    follows the distance report reads the values below and changes none. *)

(** The script's variables at the end of a run that reaches step 8. *)
Record resultado : Type := Resultado {
  nos : list node;
  matriz : list (list Z);
  rota_otimizada : list nat;
  rota_coordenadas : list coord;
  rota_nos : list node;
  rota_final : list node;
  distancia_total_metros : Q;
  distancia_total_km : Q
}.

Section Main.

Variable nearest_nodes : Q → Q → node.
Variable shortest_path_length : node → node → option Q.
Variable shortest_path : node → node → option (list node).
Variable get_edge_data : node → node → option (list edge_attr).
Variable fl : float_ops.
Variable SolveWithParameters : list (list Z) → option assignment.

(** [[coordenadas[i] for i in rota_otimizada]]: iterating [None] raises. *)
Definition rota_coordenadas_de (coordenadas : list coord)
           (rota : option (list nat)) : M (list coord) :=
  match rota with
  | Some r => forM (getitem coordenadas) r
  | None => raise TypeError
  end.

(** Step 7: the report, or the failure message. *)
Definition relatorio (enderecos : list string) (rota : option (list nat))
           (coords : list coord) : M unit :=
  match rota with
  | Some ((_ :: _) as r) =>
      _ ← emit (Print LRotaOtimizada);
      _ ← foldM (λ _ i, e ← getitem enderecos i; emit (Print (LParada i e)))
                tt r;
      _ ← emit (Print LGeocodificacao);
      foldM (λ _ (ic : nat * coord),
               let '(i, (lat, lon)) := ic in
               emit (Print (LCoordenada (i + 1) lat lon)))
            tt (zip (seq 0 (length coords)) coords)
  | _ => emit (Print LNaoFoiPossivel)
  end.

Definition main (fuel : nat) (enderecos : list string)
           (coordenadas : list coord) : M (option resultado) :=
  nos ← nos_de nearest_nodes coordenadas;
  matriz ← matriz_de shortest_path_length nos;
  rota ← resolver_tsp SolveWithParameters fuel matriz;
  coords ← rota_coordenadas_de coordenadas rota;
  _ ← relatorio enderecos rota coords;
  match rota with
  | Some ((_ :: _) as r) =>
      rota_nos ← forM (getitem nos) r;
      rota_final ← rota_final_de shortest_path rota_nos;
      total ← distancia_de get_edge_data fl rota_final;
      let km := fdiv fl total 1000%Q in
      _ ← emit (Print (LDistancia km));
      ret (Some (Resultado nos matriz r coords rota_nos rota_final total km))
  | _ => ret None
  end.

End Main.

(** ** A small road network used to run the script

    Three nodes 1, 2, 3; two parallel edges from 1 to 2; no edge makes the
    direct hop from 1 to 3 shorter than the way through 2. *)
Module Demo.

Definition nearest_nodes (lon lat : Q) : node := Qfloor lat + 1.

Definition get_edge_data (u v : node) : option (list edge_attr) :=
  match u, v with
  | 1, 2 => Some [EdgeAttr 7; EdgeAttr 5.5]
  | 2, 3 => Some [EdgeAttr 2.25]
  | 3, 1 => Some [EdgeAttr 4.5]
  | 2, 1 => Some [EdgeAttr 6]
  | 1, 3 => Some [EdgeAttr 9]
  | 3, 2 => Some [EdgeAttr 2.5]
  | _, _ => None
  end.

Definition shortest_path (a b : node) : option (list node) :=
  match a, b with
  | 1, 1 => Some [1] | 2, 2 => Some [2] | 3, 3 => Some [3]
  | 1, 2 => Some [1; 2]
  | 1, 3 => Some [1; 2; 3]
  | 2, 1 => Some [2; 1]
  | 2, 3 => Some [2; 3]
  | 3, 1 => Some [3; 1]
  | 3, 2 => Some [3; 2]
  | _, _ => None
  end.

Definition shortest_path_length (a b : node) : option Q :=
  match a, b with
  | 1, 1 | 2, 2 | 3, 3 => Some 0%Q
  | 1, 2 => Some 5.5%Q
  | 1, 3 => Some 7.75%Q
  | 2, 1 => Some 6%Q
  | 2, 3 => Some 2.25%Q
  | 3, 1 => Some 4.5%Q
  | 3, 2 => Some 2.5%Q
  | _, _ => None
  end.

(** The successor of every index on the tour 0, 1, 2, ..., back to the end. *)
Definition em_ordem : assignment := S.

Definition solver (m : list (list Z)) : option assignment := Some em_ordem.
Definition sem_solucao (m : list (list Z)) : option assignment := None.

(** A float arithmetic for the demonstration: results are rounded to the
    nearest multiple of 1/1024 (halves upward). *)
Definition arredonda (q : Q) : Q := Qfloor (q * 1024 + (1 # 2)) # 1024.

Definition fl : float_ops :=
  {| fadd x y := arredonda (x + y); fdiv x y := arredonda (x / y) |}.

Definition enderecos : list string := ["A"; "B"; "C"]%string.
Definition coordenadas : list coord := [(0, 0); (1, 1); (2, 2)]%Q.

Definition run (fuel : nat) : M (option resultado) :=
  main nearest_nodes shortest_path_length shortest_path get_edge_data fl
       solver fuel enderecos coordenadas.

(** The variables at the end of a run that is given three turns of the
    tour loop. *)
Definition fim : resultado :=
  Eval vm_compute in
    match result (run 3) with
    | inr (Some r) => r
    | _ => Resultado [] [] [] [] [] [] 0%Q 0%Q
    end.


End Demo.

Local Close Scope Z_scope.

(** ** What the routing solver promises

    With one vehicle and no optional node, a solution gives every index
    below [n] a successor in [1 .. n] (the start is nobody's successor), no
    two indices share a successor, and following successors from any index
    leads to the end index [n]. *)
Record routing_solution (n : nat) (s : assignment) : Prop := RoutingSolution {
  next_range : ∀ i, (i < n)%nat → (1 ≤ s i ≤ n)%nat;
  next_inj : ∀ i j, (i < n)%nat → (j < n)%nat → s i = s j → i = j;
  next_ends : ∀ i, (i < n)%nat → ∃ k, Nat.iter k s i = n
}.

(** The indices met in [k] steps from [i]. *)
Definition orbit (s : assignment) (i k : nat) : list nat :=
  (λ t, Nat.iter t s i) <$> seq 0 k.

(** ** Vocabulary of the statements *)

(** [matriz[i][j]], when both indices are in range. *)
Definition getcell (m : list (list Z)) (i j : nat) : option Z :=
  row ← m !! i; row !! j.

(** An [n] by [n] matrix. *)
Definition square (n : nat) (m : list (list Z)) : Prop :=
  length m = n ∧ ∀ i row, m !! i = Some row → length row = n.

(** No two neighbours of the sequence are the same node. *)
Fixpoint no_stutter (l : list node) : Prop :=
  match l with
  | u :: l' => match l' with v :: _ => u ≠ v | [] => True end ∧ no_stutter l'
  | [] => True
  end.

(** The consecutive pairs of a sequence: [zip(l[:-1], l[1:])]. *)
Definition pares {A} (l : list A) : list (A * A) := zip (removelast l) (tail l).

(** What one turn of the distance loop adds for the pair [(u, v)]. *)
Definition parcela (get_edge_data : node → node → option (list edge_attr))
           (uv : node * node) : Q :=
  match get_edge_data uv.1 uv.2 with
  | Some (d :: ds) => min_length d ds
  | _ => 0%Q
  end.

Definition parcelas (get_edge_data : node → node → option (list edge_attr))
           (l : list node) : list Q :=
  parcela get_edge_data <$> pares l.

Definition Qsum (qs : list Q) : Q := foldr Qplus 0%Q qs.

(** The amounts the distance loop adds, in order: one for every consecutive
    pair that has edge data, none for the others. *)
Definition somadas (get_edge_data : node → node → option (list edge_attr))
           (l : list node) : list Q :=
  omap (λ uv : node * node,
          match get_edge_data uv.1 uv.2 with
          | Some (d :: ds) => Some (min_length d ds)
          | _ => None
          end)
       (pares l).

(** A route with one more path joined on: the path loses its first node when
    that node is the one the route ends with. *)
Definition junta (rf p : list node) : list node :=
  match last rf with
  | Some u => if decide (head p = Some u) then rf ++ tail p else rf ++ p
  | None => p
  end.

(** The solver's cost of a tour: the matrix entries along its legs. *)
Definition custo (m : list (list Z)) (rota : list nat) : Z :=
  foldr Z.add 0%Z ((λ ij : nat * nat, default 0%Z (getcell m ij.1 ij.2))
                     <$> pares rota).

(** A run that stopped at a shortest-path-length query without an answer:
    the query is the last thing that happened. *)
Definition no_path_abort (shortest_path_length : node → node → option Q)
           {A} (m : M A) : Prop :=
  ∃ a b, result m = inl (NetworkXNoPath a b) ∧
         shortest_path_length a b = None ∧
         last (trace m) = Some (ShortestPathLength a b).

(** Events of the stages that follow the matrix. *)
Definition later_stage (e : event) : bool :=
  match e with
  | ShortestPath _ _ | GetEdgeData _ _ | Print _ => true
  | NearestNodes _ _ | ShortestPathLength _ _ => false
  end.

Definition is_nearest (e : event) : bool :=
  match e with NearestNodes _ _ => true | _ => false end.

(** The cells of the matrix in the order the two loops visit them. *)
Definition cells (n : nat) : list (nat * nat) :=
  i ← seq 0 n; pair i <$> seq 0 n.

(** [m'] is [m] with the off-diagonal cells listed in [ps] holding the
    truncated shortest-path lengths between their waypoints' nodes. *)
Definition filled (shortest_path_length : node → node → option Q)
           (nos : list node) (ps : list (nat * nat))
           (m m' : list (list Z)) : Prop :=
  ∀ i j,
    if decide ((i, j) ∈ ps ∧ i ≠ j)
    then ∃ a b q, nos !! i = Some a ∧ nos !! j = Some b ∧
                  shortest_path_length a b = Some q ∧
                  getcell m' i j = Some (int q)
    else getcell m' i j = getcell m i j.

(** What the stages after step 4 may do: no nearest-node lookup, and path
    queries only between nodes of the list [nos] made in step 4. *)
Definition shared_nodes (nos : list node) (e : event) : Prop :=
  match e with
  | NearestNodes _ _ => False
  | ShortestPathLength a b =>
      ∃ i j, i ≠ j ∧ nos !! i = Some a ∧ nos !! j = Some b
  | ShortestPath a b => ∃ i j, nos !! i = Some a ∧ nos !! j = Some b
  | GetEdgeData _ _ | Print _ => True
  end.

(** The length of the path the graph library returns from [a] to [b],
    counted as the distance loop counts it. *)
Definition peso_caminho (get_edge_data : node → node → option (list edge_attr))
           (shortest_path : node → node → option (list node))
           (ab : node * node) : Q :=
  match shortest_path ab.1 ab.2 with
  | Some p => Qsum (parcelas get_edge_data p)
  | None => 0%Q
  end.

(** ** The rest of the script *)

(** The transit callback of [resolver_tsp]:
    [matriz[manager.IndexToNode(from_index)][manager.IndexToNode(to_index)]];
    [None] is an [IndexError]. *)
Definition callback (matriz : list (list Z)) (from_index to_index : nat)
  : option Z :=
  getcell matriz (Routing.IndexToNode (length matriz) from_index)
          (Routing.IndexToNode (length matriz) to_index).

(** The indices of a solution's route, from the start to the end index. *)
Definition route_indices (n : nat) (s : assignment) : list nat :=
  orbit s Routing.Start n ++ [Routing.End n].

(** What the solver charges for a route: the callback on its arcs. *)
Definition route_cost (matriz : list (list Z)) (indices : list nat) : Z :=
  foldr Z.add 0%Z ((λ ft : nat * nat, default 0%Z (callback matriz ft.1 ft.2))
                     <$> pares indices).

(** The queries the matrix loops make for a list of cells when every one is
    answered. *)
Definition consultas (nos : list node) (ps : list (nat * nat)) : list event :=
  ij ← ps;
  if decide (ij.1 ≠ ij.2) then
    match nos !! ij.1, nos !! ij.2 with
    | Some a, Some b => [ShortestPathLength a b]
    | _, _ => []
    end
  else [].

(** Paths joined end to start, each junction kept once. *)
Definition stitch (ps : list (list node)) : list node :=
  match ps with
  | [] => []
  | p :: ps' => p ++ concat (tail <$> ps')
  end.

(** The markers drawn on the map: the position of the first stop, and for
    every stop strictly between the first and the last its waypoint index
    and position.  [node_xy] is [(G.nodes[n]['x'], G.nodes[n]['y'])]. *)
Definition marcadores (node_xy : node → Q * Q)
           (rota_otimizada : list nat) (rota_nos : list node)
  : M ((Q * Q) * list (nat * (Q * Q))) :=
  let coords := node_xy <$> rota_nos in
  inicio ← getitem coords 0;
  anotacoes ← forM (λ i, node_id ← getitem rota_nos i;
                         endereco_index ← getitem rota_otimizada i;
                         ret (endereco_index, node_xy node_id))
                   (seq 1 (length rota_nos - 1 - 1));
  ret (inicio, anotacoes).

(** ** Laws of the script monad *)

Lemma bind_unfold {A B} (f : A → M B) (m : M A) : m ≫= f = bind m f.
Proof. reflexivity. Qed.

Lemma bind_ret {A B} (a : A) (f : A → M B) : bind (ret a) f = f a.
Proof. unfold bind, ret. simpl. by destruct (f a). Qed.

Lemma result_bind {A B} (m : M A) (f : A → M B) :
  result (bind m f) =
    match result m with inl e => inl e | inr a => result (f a) end.
Proof. by destruct m as [t [e|a]]. Qed.

Lemma trace_bind {A B} (m : M A) (f : A → M B) :
  trace (bind m f) =
    trace m ++ match result m with inl _ => [] | inr a => trace (f a) end.
Proof. destruct m as [t [e|a]]; simpl; [by rewrite app_nil_r | done]. Qed.

Lemma bind_inr {A B} (m : M A) (f : A → M B) (b : B) :
  result (bind m f) = inr b →
  ∃ a, result m = inr a ∧ result (f a) = inr b.
Proof. rewrite result_bind. destruct (result m) as [e|a]; [done | eauto]. Qed.

(** ** The tour loop *)

Lemma orbit_length s i k : length (orbit s i k) = k.
Proof. unfold orbit. by rewrite length_fmap, length_seq. Qed.

Lemma orbit_lookup s i k t :
  (t < k)%nat → orbit s i k !! t = Some (Nat.iter t s i).
Proof.
  intros Ht. unfold orbit. rewrite list_lookup_fmap, lookup_seq_lt by done.
  done.
Qed.

Lemma orbit_cons s i k : orbit s i (S k) = i :: orbit s (s i) k.
Proof.
  unfold orbit. simpl. f_equal. rewrite <- fmap_S_seq, <- list_fmap_compose.
  apply list_fmap_ext. intros _ t _. simpl. by rewrite <- Nat.iter_succ_r.
Qed.

(** The loop appends the indices met before the first one that is an end. *)
Lemma walk_orbit n s k :
  ∀ fuel index rota,
    (∀ t, (t < k)%nat → (Nat.iter t s index < n)%nat) →
    (n ≤ Nat.iter k s index)%nat →
    (k ≤ fuel)%nat →
    walk fuel n s index rota = ret (rota ++ orbit s index k).
Proof.
  induction k as [|k IH]; intros fuel index rota Hlt Hend Hfuel.
  - simpl in Hend. unfold orbit. simpl. rewrite app_nil_r.
    destruct fuel; simpl; unfold Routing.IsEnd;
      by rewrite (proj2 (Nat.leb_le _ _) Hend).
  - destruct fuel as [|fuel]; [lia|].
    pose proof (Hlt 0%nat ltac:(lia)) as H0. simpl in H0.
    simpl. unfold Routing.IsEnd, Routing.IndexToNode.
    rewrite (proj2 (Nat.leb_gt _ _) H0), (proj2 (Nat.ltb_lt _ _) H0).
    rewrite (IH fuel (s index) (rota ++ [index])).
    + by rewrite orbit_cons, <- app_assoc.
    + intros t Ht. rewrite <- Nat.iter_succ_r. apply Hlt. lia.
    + by rewrite <- Nat.iter_succ_r.
    + lia.
Qed.

Section RoutingFacts.

Variables (n : nat) (s : assignment).
Hypothesis Hsol : routing_solution n s.

(** The first time the successors of [i] reach the end. *)
Lemma first_end k :
  ∀ i, (i < n)%nat → Nat.iter k s i = n →
  ∃ d, (1 ≤ d ≤ k)%nat ∧ Nat.iter d s i = n ∧
       ∀ t, (t < d)%nat → (Nat.iter t s i < n)%nat.
Proof.
  induction k as [|k IH]; intros i Hi Hk.
  - simpl in Hk. lia.
  - rewrite Nat.iter_succ_r in Hk.
    pose proof (next_range n s Hsol i Hi) as Hr.
    destruct (decide (s i = n)) as [Hn|Hn].
    + exists 1%nat. split; [lia|]. split; [done|].
      intros t Ht. assert (t = 0%nat) as -> by lia. done.
    + destruct (IH (s i) ltac:(lia) Hk) as (d & Hd & Hdn & Hdlt).
      exists (S d). split; [lia|]. split.
      * by rewrite Nat.iter_succ_r.
      * intros [|t] Ht; [done|]. rewrite Nat.iter_succ_r. apply Hdlt. lia.
Qed.

Lemma iter_add (a b i : nat) :
  Nat.iter (a + b) s i = Nat.iter a s (Nat.iter b s i).
Proof. induction a as [|a IH]; simpl; congruence. Qed.

(** Two routes to the end that are both first arrivals agree backwards. *)
Lemma back_agree i j di dj :
  Nat.iter di s i = n → (∀ t, (t < di)%nat → (Nat.iter t s i < n)%nat) →
  Nat.iter dj s j = n → (∀ t, (t < dj)%nat → (Nat.iter t s j < n)%nat) →
  ∀ t, (t ≤ di)%nat → (t ≤ dj)%nat →
       Nat.iter (di - t) s i = Nat.iter (dj - t) s j.
Proof.
  intros Hi Hilt Hj Hjlt t. induction t as [|t IH]; intros Hti Htj.
  - rewrite !Nat.sub_0_r. congruence.
  - specialize (IH ltac:(lia) ltac:(lia)).
    replace (di - t)%nat with (S (di - S t)) in IH by lia.
    replace (dj - t)%nat with (S (dj - S t)) in IH by lia.
    simpl in IH.
    apply (next_inj n s Hsol); [apply Hilt; lia | apply Hjlt; lia | done].
Qed.

Section FromStart.

Variable d : nat.
Hypothesis Hd : Nat.iter d s 0 = n.
Hypothesis Hlt : ∀ t, (t < d)%nat → (Nat.iter t s 0 < n)%nat.

Lemma orbit_below x : x ∈ orbit s 0 d → (x < n)%nat.
Proof.
  intros Hx. apply list_elem_of_lookup in Hx as [t Ht].
  pose proof (lookup_lt_Some _ _ _ Ht) as Hl. rewrite orbit_length in Hl.
  rewrite orbit_lookup in Ht by done. injection Ht as <-. by apply Hlt.
Qed.

Lemma orbit_NoDup : NoDup (orbit s 0 d).
Proof.
  apply NoDup_alt. intros a b x Ha Hb.
  pose proof (lookup_lt_Some _ _ _ Ha) as Hla.
  pose proof (lookup_lt_Some _ _ _ Hb) as Hlb.
  rewrite orbit_length in Hla, Hlb.
  rewrite orbit_lookup in Ha, Hb by done.
  injection Ha as Ha. injection Hb as Hb.
  assert (∀ a b, (a < b)%nat → (b < d)%nat →
                 Nat.iter a s 0 = Nat.iter b s 0 → False) as Hne.
  { clear Ha Hb Hla Hlb. intros a' b' Hab Hbd Heq.
    pose proof (Hlt (d - b' + a')%nat ltac:(lia)) as Hc.
    rewrite iter_add, Heq, <- iter_add in Hc.
    replace (d - b' + b')%nat with d in Hc by lia. lia. }
  destruct (Nat.lt_trichotomy a b) as [Hab|[Hab|Hab]]; [|done|].
  - exfalso. apply (Hne a b); [done..|congruence].
  - exfalso. apply (Hne b a); [done..|congruence].
Qed.

Lemma orbit_covers j : (j < n)%nat → j ∈ orbit s 0 d.
Proof.
  intros Hj. destruct (next_ends n s Hsol j Hj) as [k Hk].
  destruct (first_end k j Hj Hk) as (dj & Hdj & Hjn & Hjlt).
  destruct (decide (dj ≤ d)%nat) as [Hle|Hgt].
  - pose proof (back_agree 0 j d dj Hd Hlt Hjn Hjlt dj Hle ltac:(lia)) as H.
    rewrite Nat.sub_diag in H. simpl in H. rewrite <- H.
    apply list_elem_of_lookup. exists (d - dj)%nat.
    apply orbit_lookup. lia.
  - pose proof (back_agree 0 j d dj Hd Hlt Hjn Hjlt d ltac:(lia) ltac:(lia))
      as H.
    rewrite Nat.sub_diag in H. simpl in H.
    replace (dj - d)%nat with (S (dj - d - 1)) in H by lia. simpl in H.
    pose proof (next_range n s Hsol (Nat.iter (dj - d - 1) s j)
                  ltac:(apply Hjlt; lia)) as Hr.
    lia.
Qed.

Lemma orbit_Permutation : orbit s 0 d ≡ₚ seq 0 n.
Proof.
  apply NoDup_Permutation; [apply orbit_NoDup | apply NoDup_seq |].
  intros x. rewrite elem_of_seq. split.
  - intros Hx. apply orbit_below in Hx. lia.
  - intros Hx. apply orbit_covers. lia.
Qed.

End FromStart.

(** From the start the successors pass through every index once. *)
Lemma start_orbit :
  (0 < n)%nat →
  ∃ meio, orbit s 0 n = 0%nat :: meio ∧ meio ≡ₚ seq 1 (n - 1) ∧
          (∀ t, (t < n)%nat → (Nat.iter t s 0 < n)%nat) ∧
          Nat.iter n s 0 = n.
Proof.
  intros Hpos. destruct (next_ends n s Hsol 0%nat Hpos) as [k Hk].
  destruct (first_end k 0%nat Hpos Hk) as (d & Hd & Hdn & Hdlt).
  pose proof (orbit_Permutation d Hdn Hdlt) as Hperm.
  assert (d = n) as ->.
  { apply Permutation_length in Hperm.
    by rewrite orbit_length, length_seq in Hperm. }
  destruct n as [|m]; [lia|]. rewrite orbit_cons in Hperm |- *.
  exists (orbit s (s 0%nat) m). split; [done|]. split; [|done].
  simpl in Hperm. apply Permutation_cons_inv in Hperm.
  by replace (S m - 1) with m by lia.
Qed.

End RoutingFacts.

(** The tour for a solution that keeps the solver's promises. *)
Lemma resolver_tsp_tour (Solve : list (list Z) → option assignment)
      (matriz : list (list Z)) (solution : assignment) (fuel : nat) :
  0 < length matriz →
  Solve matriz = Some solution →
  routing_solution (length matriz) solution →
  length matriz ≤ fuel →
  ∃ meio, resolver_tsp Solve fuel matriz = ret (Some (0 :: meio ++ [0])) ∧
          meio ≡ₚ seq 1 (length matriz - 1).
Proof.
  intros Hpos Hsolve Hsol Hfuel.
  destruct (start_orbit _ _ Hsol Hpos) as (meio & Horb & Hperm & Hlt & Hend).
  exists meio. split; [|done].
  unfold resolver_tsp, Routing.Start. rewrite Hsolve.
  rewrite (walk_orbit _ _ (length matriz)); [| done | by rewrite Hend | done].
  rewrite bind_unfold, bind_ret. simpl. by rewrite Horb.
Qed.

Lemma em_ordem_solution n : routing_solution n Demo.em_ordem.
Proof.
  assert (∀ k i, Nat.iter k S i = k + i) as Hiter.
  { induction k as [|k IH]; intros i; simpl; [done | by rewrite IH]. }
  unfold Demo.em_ordem. split.
  - intros i Hi. lia.
  - intros i j _ _ Hij. lia.
  - intros i Hi. exists (n - i). rewrite Hiter. lia.
Qed.

(** Unfold the bind notation to [bind]. *)
Ltac unmonad := unfold mbind, M_bind in *.

(** ** Loops *)

Lemma foldM_cons {A B} (body : A → B → M A) acc x xs :
  foldM body acc (x :: xs) = bind (body acc x) (λ acc', foldM body acc' xs).
Proof. reflexivity. Qed.

Lemma foldM_app {A B} (body : A → B → M A) xs ys :
  ∀ acc, foldM body acc (xs ++ ys)
         = bind (foldM body acc xs) (λ acc', foldM body acc' ys).
Proof.
  induction xs as [|x xs IH]; intros acc.
  - cbn [foldM app]. by rewrite bind_ret.
  - rewrite <- app_comm_cons, !foldM_cons.
    destruct (body acc x) as [t [e|a]]; simpl; [done|].
    rewrite IH. destruct (foldM body a xs) as [t' [e'|a']]; simpl; [done|].
    by rewrite app_assoc.
Qed.

(** A property kept by every turn that completes holds after the loop. *)
Lemma foldM_invariant {A B} (body : A → B → M A) (I : A → Prop) xs :
  (∀ acc x acc', x ∈ xs → I acc → result (body acc x) = inr acc' → I acc') →
  ∀ acc acc', I acc → result (foldM body acc xs) = inr acc' → I acc'.
Proof.
  induction xs as [|x xs IH]; intros Hstep acc acc' Hacc Hrun.
  - simpl in Hrun. by injection Hrun as <-.
  - rewrite foldM_cons in Hrun. apply bind_inr in Hrun as (a & Ha & Hrun).
    apply (IH (λ acc0 y acc1 Hy, Hstep acc0 y acc1 (list_elem_of_further _ _ _ Hy))
              a acc'); [|done].
    apply (Hstep acc x a); [left | done | done].
Qed.

(** Every event of a loop is an event of one of its turns. *)
Lemma bind_trace_Forall {A B} (P : event → Prop) (m : M A) (f : A → M B) :
  Forall P (trace m) → (∀ a, Forall P (trace (f a))) →
  Forall P (trace (bind m f)).
Proof.
  intros Hm Hf. rewrite trace_bind. apply Forall_app. split; [done|].
  destruct (result m); [constructor | apply Hf].
Qed.

Lemma foldM_trace_Forall {A B} (P : event → Prop) (body : A → B → M A) xs :
  (∀ acc x, x ∈ xs → Forall P (trace (body acc x))) →
  ∀ acc, Forall P (trace (foldM body acc xs)).
Proof.
  induction xs as [|x xs IH]; intros Hbody acc; [constructor|].
  rewrite foldM_cons. apply bind_trace_Forall.
  - apply Hbody. left.
  - intros a. apply IH. intros acc0 y Hy. apply Hbody. by right.
Qed.

(** A list comprehension over [getitem] reads the list at every index. *)
Lemma forM_getitem {A} (xs : list A) (idx : list nat) :
  trace (forM (getitem xs) idx) = [] ∧
  ∀ ys, result (forM (getitem xs) idx) = inr ys →
        Forall2 (λ i y, xs !! i = Some y) idx ys.
Proof.
  induction idx as [|i idx [IHt IHr]].
  - split; [done|]. intros ys [= <-]. constructor.
  - cbn [forM]. unmonad. unfold getitem at 1 3.
    destruct (xs !! i) as [x|] eqn:Hx; simpl.
    + destruct (forM (getitem xs) idx) as [t [e|ys']]; simpl in *; subst t.
      * split; [done|]. intros ys [=].
      * split; [done|]. intros ys [= <-]. constructor; [done|]. by apply IHr.
    + split; [done|]. intros ys [=].
Qed.

(** ** The assembled route *)

Lemma no_stutter_app l p :
  no_stutter l → no_stutter p →
  (∀ u v, last l = Some u → head p = Some v → u ≠ v) →
  no_stutter (l ++ p).
Proof.
  induction l as [|x l IH]; intros Hl Hp Hseam; [done|].
  destruct Hl as [Hx Hl]. simpl. split.
  - destruct l as [|y l]; simpl.
    + destruct p as [|v p]; [done|]. by apply Hseam.
    + done.
  - apply IH; [done | done |]. intros u v Hu Hv. apply Hseam; [|done].
    destruct l; [done|]. by rewrite last_cons, Hu.
Qed.

Lemma no_stutter_tail p : no_stutter p → no_stutter (tail p).
Proof. destruct p as [|x p]; [done|]. by intros [_ H]. Qed.

(** What one leg appends: the whole path to an empty route or after a node
    other than its first, the path without its first node after that node. *)
Lemma getitem_inr {A} (xs : list A) i x :
  result (getitem xs i) = inr x → xs !! i = Some x.
Proof. unfold getitem. destruct (xs !! i); simpl; congruence. Qed.

Lemma getitem_Some {A} (xs : list A) i x :
  xs !! i = Some x → getitem xs i = ret x.
Proof. unfold getitem. by intros ->. Qed.

Lemma call_shortest_path_inr sp a b p :
  result (call_shortest_path sp a b) = inr p → sp a b = Some p.
Proof.
  unfold call_shortest_path. unmonad. destruct (sp a b); simpl; congruence.
Qed.

Lemma seam_inr rf p p' :
  result (seam rf p) = inr p' →
  (rf = [] ∧ p' = p) ∨
  (∃ u, last rf = Some u ∧ head p = Some u ∧ p' = tail p) ∨
  (∃ u v, last rf = Some u ∧ head p = Some v ∧ u ≠ v ∧ p' = p).
Proof.
  unfold seam. unmonad. intros H. destruct (last rf) as [u|] eqn:Hlast.
  - apply bind_inr in H as (v & Hv & H). apply getitem_inr in Hv.
    destruct p as [|v' p]; [done|]. injection Hv as ->.
    destruct (decide (v = u)) as [->|Hne]; simpl in H; injection H as <-.
    + right. left. by exists u.
    + right. right. by exists u, v.
  - apply last_None in Hlast as ->. simpl in H. injection H as <-. by left.
Qed.

(** What one leg appends: the whole path to an empty route or after a node
    other than its first, the path without its first node after that node. *)
Lemma leg_inr sp rn rf i rf' :
  result (leg sp rn rf i) = inr rf' →
  ∃ a b p, rn !! i = Some a ∧ rn !! (i + 1) = Some b ∧ sp a b = Some p ∧
    ((rf = [] ∧ rf' = p) ∨
     (∃ u, last rf = Some u ∧ head p = Some u ∧ rf' = rf ++ tail p) ∨
     (∃ u v, last rf = Some u ∧ head p = Some v ∧ u ≠ v ∧ rf' = rf ++ p)).
Proof.
  unfold leg. unmonad. intros H.
  apply bind_inr in H as (a & Ha & H). apply getitem_inr in Ha.
  apply bind_inr in H as (b & Hb & H). apply getitem_inr in Hb.
  apply bind_inr in H as (p & Hp & H). apply call_shortest_path_inr in Hp.
  apply bind_inr in H as (p' & Hp' & H). simpl in H. injection H as <-.
  exists a, b, p. do 3 (split; [done|]).
  apply seam_inr in Hp'
    as [[-> ->] | [(u & Hu & Hh & ->) | (u & v & Hu & Hh & Hne & ->)]].
  - by left.
  - right. left. by exists u.
  - right. right. by exists u, v.
Qed.

Lemma leg_keeps_no_stutter sp rn rf i rf' :
  (∀ a b p, sp a b = Some p → no_stutter p) →
  no_stutter rf → result (leg sp rn rf i) = inr rf' → no_stutter rf'.
Proof.
  intros Hsp Hrf Hleg.
  apply leg_inr in Hleg as (a & b & p & _ & _ & Hp & Hcase).
  apply Hsp in Hp.
  destruct Hcase as [[-> ->] | [(u & Hu & Hh & ->) | (u & v & Hu & Hh & Hne & ->)]].
  - done.
  - apply no_stutter_app; [done | by apply no_stutter_tail |].
    intros u' v' Hu' Hv'. destruct p as [|x [|y p]]; try done.
    simpl in *. destruct Hp as [Hxy _]. congruence.
  - apply no_stutter_app; [done..|]. intros u' v' Hu' Hv'. congruence.
Qed.

(** ** The distance loop *)

Lemma min_fold_spec (ds : list edge_attr) :
  ∀ m : Q,
    let r := fold_left
               (λ m x, if Qle_bool m (attr_length x) then m else attr_length x)
               ds m in
    (r <= m)%Q ∧ (∀ x, x ∈ ds → (r <= attr_length x)%Q) ∧
    (r = m ∨ ∃ x, x ∈ ds ∧ r = attr_length x).
Proof.
  induction ds as [|d ds IH]; intros m; simpl.
  - split; [lra|]. split; [|by left]. intros x Hx. by apply elem_of_nil in Hx.
  - destruct (Qle_bool m (attr_length d)) eqn:Hle.
    + apply Qle_bool_iff in Hle. destruct (IH m) as (Hm & Hds & Hin).
      split; [done|]. split.
      * intros x [->|Hx]%elem_of_cons; [lra | by apply Hds].
      * destruct Hin as [->|(x & Hx & ->)]; [by left|].
        right. exists x. split; [by right | done].
    + assert (attr_length d < m)%Q as Hlt.
      { apply Qnot_le_lt. intros H. apply Qle_bool_iff in H. congruence. }
      destruct (IH (attr_length d)) as (Hm & Hds & Hin).
      split; [lra|]. split.
      * intros x [->|Hx]%elem_of_cons; [done | by apply Hds].
      * right. destruct Hin as [->|(x & Hx & ->)].
        -- exists d. split; [left | done].
        -- exists x. split; [by right | done].
Qed.

Lemma min_length_le d ds x :
  x ∈ d :: ds → (min_length d ds <= attr_length x)%Q.
Proof.
  destruct (min_fold_spec ds (attr_length d)) as (Hm & Hds & _).
  intros [->|Hx]%elem_of_cons; [done | by apply Hds].
Qed.

Lemma min_length_in d ds :
  ∃ x, x ∈ d :: ds ∧ min_length d ds = attr_length x.
Proof.
  destruct (min_fold_spec ds (attr_length d)) as (_ & _ & [H|(x & Hx & H)]).
  - exists d. split; [left | done].
  - exists x. split; [by right | done].
Qed.

Lemma pares_cons2 {A} (u v : A) l : pares (u :: v :: l) = (u, v) :: pares (v :: l).
Proof. reflexivity. Qed.

Lemma pares_lookup {A} (l : list A) i u v :
  l !! i = Some u → l !! S i = Some v → pares l !! i = Some (u, v).
Proof.
  revert i. induction l as [|x [|y l] IH]; intros i Hu Hv; [done| |].
  - by destruct i.
  - rewrite pares_cons2. destruct i as [|i]; simpl in *.
    + congruence.
    + by apply IH.
Qed.

(** A sequence that runs through [u] splits there. *)
Lemma pares_app {A} (l r : list A) u :
  pares (l ++ u :: r) = pares (l ++ [u]) ++ pares (u :: r).
Proof.
  induction l as [|x [|y l] IH]; [done | done |].
  change (pares (x :: y :: (l ++ u :: r))
          = pares (x :: y :: (l ++ [u])) ++ pares (u :: r)).
  rewrite !pares_cons2. simpl. f_equal. apply IH.
Qed.

Lemma Qsum_nil : Qsum [] = 0%Q.
Proof. reflexivity. Qed.

Lemma Qsum_cons q qs : Qsum (q :: qs) = (q + Qsum qs)%Q.
Proof. reflexivity. Qed.

Lemma Qsum_app qs rs : (Qsum (qs ++ rs) == Qsum qs + Qsum rs)%Q.
Proof.
  induction qs as [|q qs IH].
  - rewrite Qsum_nil. simpl. lra.
  - rewrite <- app_comm_cons, !Qsum_cons. lra.
Qed.

Lemma Qsum_nonneg_aux qs : Forall (λ q, (0 <= q)%Q) qs → (0 <= Qsum qs)%Q.
Proof.
  induction 1 as [|q qs Hq _ IH]; [rewrite Qsum_nil; lra|].
  rewrite Qsum_cons. lra.
Qed.

Lemma inject_Z_S_mult (k : nat) (c : Q) :
  (inject_Z (Z.of_nat (S k)) * c == inject_Z (Z.of_nat k) * c + c)%Q.
Proof.
  rewrite Nat2Z.inj_succ. unfold Z.succ. rewrite inject_Z_plus.
  change (inject_Z 1) with 1%Q. ring.
Qed.

Lemma somadas_cons2 ged (u v : node) l :
  somadas ged (u :: v :: l)
  = match ged u v with
    | Some (d :: ds) => min_length d ds :: somadas ged (v :: l)
    | _ => somadas ged (v :: l)
    end.
Proof.
  unfold somadas. rewrite pares_cons2. cbn [omap list_omap fst snd].
  by destruct (ged u v) as [[|d ds]|].
Qed.

(** One turn reads the edge data once and adds the pair's amount, if any,
    with the machine's addition. *)
Lemma soma_aresta_run ged fl total uv :
  soma_aresta ged fl total uv
  = ([GetEdgeData uv.1 uv.2],
     inr match ged uv.1 uv.2 with
         | Some (d :: ds) => fadd fl total (min_length d ds)
         | _ => total
         end).
Proof.
  destruct uv as [u v]. unfold soma_aresta. unmonad. cbn [fst snd].
  by destruct (ged u v) as [[|d ds]|].
Qed.

Lemma distancia_loop ged fl ps :
  ∀ t0, result (foldM (soma_aresta ged fl) t0 ps)
        = inr (fold_left (fadd fl)
                 (omap (λ uv : node * node,
                          match ged uv.1 uv.2 with
                          | Some (d :: ds) => Some (min_length d ds)
                          | _ => None
                          end) ps)
                 t0).
Proof.
  induction ps as [|uv ps IH]; intros t0; [done|].
  rewrite foldM_cons, soma_aresta_run, result_bind. cbn [result snd].
  rewrite IH. cbn [omap list_omap].
  by destruct (ged uv.1 uv.2) as [[|d ds]|].
Qed.

(** The distance loop returns the machine's left-to-right sum of the amounts
    it adds. *)
Lemma distancia_total ged fl rota :
  result (distancia_de ged fl rota)
  = inr (fold_left (fadd fl) (somadas ged rota) 0%Q).
Proof. apply distancia_loop. Qed.

Lemma Qsum_somadas ged rota :
  (Qsum (somadas ged rota) == Qsum (parcelas ged rota))%Q.
Proof.
  unfold somadas, parcelas.
  induction (pares rota) as [|[u v] ps IH]; [reflexivity|].
  rewrite fmap_cons, Qsum_cons. cbn [omap list_omap]. unfold parcela at 1.
  cbn [fst snd]. destruct (ged u v) as [[|d ds]|].
  - lra.
  - rewrite Qsum_cons. lra.
  - lra.
Qed.

Lemma length_somadas ged rota : length (somadas ged rota) ≤ length rota - 1.
Proof.
  induction rota as [|u [|v l] IH]; [done | done |].
  rewrite somadas_cons2.
  destruct (ged u v) as [[|d ds]|]; cbn [length] in *; lia.
Qed.

(** With exact additions the machine's sum is the sum. *)
Lemma fold_fadd_exact fl qs :
  (∀ x y, fadd fl x y == x + y)%Q →
  ∀ acc, (fold_left (fadd fl) qs acc == acc + Qsum qs)%Q.
Proof.
  intros Hexact. induction qs as [|q qs IH]; intros acc.
  - cbn [fold_left]. rewrite Qsum_nil. lra.
  - cbn [fold_left]. rewrite IH, Qsum_cons, Hexact. lra.
Qed.

Lemma distancia_exact ged fl rota :
  (∀ x y, fadd fl x y == x + y)%Q →
  (fold_left (fadd fl) (somadas ged rota) 0 == Qsum (parcelas ged rota))%Q.
Proof.
  intros Hexact. rewrite (fold_fadd_exact fl _ Hexact), Qsum_somadas. lra.
Qed.

(** Additions that are each within [delta] of the exact sum, on values up to
    [B], leave the machine's sum of non-negative amounts within [delta] per
    addition of the exact sum. *)
Lemma fold_fadd_near fl (delta B : Q) qs :
  (0 <= delta)%Q →
  (∀ x y, Qabs x <= B → Qabs y <= B →
          Qabs (fadd fl x y - (x + y)) <= delta)%Q →
  Forall (λ q, (0 <= q)%Q) qs →
  ∀ (acc s : Q) (k : nat),
    (0 <= s)%Q →
    (Qabs (acc - s) <= inject_Z (Z.of_nat k) * delta)%Q →
    (s + Qsum qs + inject_Z (Z.of_nat (k + length qs)) * delta <= B)%Q →
    (Qabs (fold_left (fadd fl) qs acc - (s + Qsum qs))
     <= inject_Z (Z.of_nat (k + length qs)) * delta)%Q.
Proof.
  intros Hdelta Hfadd. induction 1 as [|q qs Hq Hqs IH]; intros acc s k Hs Hacc HB.
  - cbn [fold_left length] in *. rewrite Nat.add_0_r in *.
    rewrite Qsum_nil in *. apply Qabs_Qle_condition in Hacc.
    apply Qabs_Qle_condition. split; lra.
  - cbn [fold_left length] in *. rewrite Qsum_cons in *.
    replace (k + S (length qs)) with (S k + length qs) in * by lia.
    pose proof (Qsum_nonneg_aux qs Hqs) as Hsum.
    assert (0 <= inject_Z (Z.of_nat (length qs)) * delta)%Q as Hrest.
    { apply Qmult_le_0_compat; [|done].
      change 0%Q with (inject_Z 0). rewrite <- Zle_Qle. lia. }
    assert (inject_Z (Z.of_nat (S k + length qs)) * delta
            == inject_Z (Z.of_nat (S k)) * delta
               + inject_Z (Z.of_nat (length qs)) * delta)%Q as Hsplit.
    { rewrite Nat2Z.inj_add, inject_Z_plus. ring. }
    pose proof (inject_Z_S_mult k delta) as Hk.
    assert (0 <= inject_Z (Z.of_nat k) * delta)%Q as Hk0.
    { apply Qmult_le_0_compat; [|done].
      change 0%Q with (inject_Z 0). rewrite <- Zle_Qle. lia. }
    apply Qabs_Qle_condition in Hacc.
    assert (Qabs (fadd fl acc q - (acc + q)) <= delta)%Q as Hstep.
    { apply Hfadd; apply Qabs_Qle_condition; split; lra. }
    apply Qabs_Qle_condition in Hstep.
    assert (Qabs (fold_left (fadd fl) qs (fadd fl acc q) - (s + q + Qsum qs))
            <= inject_Z (Z.of_nat (S k + length qs)) * delta)%Q as Hgoal.
    { apply IH; [lra | | lra]. apply Qabs_Qle_condition. split; lra. }
    apply Qabs_Qle_condition in Hgoal. apply Qabs_Qle_condition. split; lra.
Qed.

(** ** Truncation *)

Lemma int_nonneg_floor q : (0 <= q)%Q → int q = Qfloor q.
Proof.
  intros Hq. unfold int. destruct q as [num den]. simpl.
  apply Z.quot_div_nonneg; [|lia].
  unfold Qle in Hq. simpl in Hq. lia.
Qed.

Lemma int_opp q : int (- q) = (- int q)%Z.
Proof. unfold int. destruct q as [num den]. simpl. apply Z.quot_opp_l. lia. Qed.

Lemma int_bounds q :
  (0 <= q)%Q →
  (0 <= int q)%Z ∧ (inject_Z (int q) <= q)%Q ∧ (q < inject_Z (int q) + 1)%Q.
Proof.
  intros Hq. rewrite (int_nonneg_floor q Hq). split; [|split].
  - change 0%Z with (Qfloor 0). by apply Qfloor_resp_le.
  - apply Qfloor_le.
  - pose proof (Qlt_floor q) as H. by rewrite inject_Z_plus in H.
Qed.

(** Truncation moves a float by less than one. *)
Lemma int_near q : (Qabs (q - inject_Z (int q)) < 1)%Q.
Proof.
  destruct (Qlt_le_dec q 0) as [Hneg|Hpos].
  - assert (0 <= - q)%Q as Hq by lra.
    destruct (int_bounds (- q) Hq) as (_ & Hlo & Hhi).
    rewrite int_opp, inject_Z_opp in Hlo, Hhi.
    apply Qabs_case; intros; lra.
  - destruct (int_bounds q Hpos) as (_ & Hlo & Hhi).
    apply Qabs_case; intros; lra.
Qed.

(** ** The distance matrix *)

Lemma getcell_update m i j v row i' j' :
  m !! i = Some row → j < length row →
  getcell (<[i := <[j := v]> row]> m) i' j'
  = if decide (i' = i ∧ j' = j) then Some v else getcell m i' j'.
Proof.
  intros Hrow Hj. pose proof (lookup_lt_Some _ _ _ Hrow) as Hi.
  unfold getcell. destruct (decide (i' = i)) as [->|Hne].
  - rewrite list_lookup_insert_eq by done. simpl. rewrite Hrow. simpl.
    destruct (decide (j' = j)) as [->|Hnej].
    + rewrite list_lookup_insert_eq by done. by rewrite decide_True.
    + rewrite list_lookup_insert_ne by done. rewrite decide_False by tauto. done.
  - rewrite list_lookup_insert_ne by done. by rewrite decide_False by tauto.
Qed.

Lemma square_update n m i j v row :
  square n m → m !! i = Some row → square n (<[i := <[j := v]> row]> m).
Proof.
  intros [Hlen Hrows] Hrow. split; [by rewrite length_insert|].
  intros i' row' Hrow'. destruct (decide (i' = i)) as [->|Hne].
  - rewrite list_lookup_insert_eq in Hrow' by (by eapply lookup_lt_Some).
    injection Hrow' as <-. rewrite length_insert. by apply (Hrows i).
  - rewrite list_lookup_insert_ne in Hrow' by done. by apply (Hrows i').
Qed.

Lemma square_zeros n : square n (replicate n (replicate n 0%Z)).
Proof.
  split; [by rewrite length_replicate|]. intros i row Hrow.
  apply lookup_replicate in Hrow as [-> _]. by rewrite length_replicate.
Qed.

Lemma getcell_zeros n i j :
  i < n → j < n → getcell (replicate n (replicate n 0%Z)) i j = Some 0%Z.
Proof.
  intros Hi Hj. unfold getcell. rewrite lookup_replicate_2 by done. simpl.
  by rewrite lookup_replicate_2.
Qed.

Lemma setitem2_run n m i j v :
  square n m → i < n → j < n →
  ∃ m', setitem2 m i j v = ret m' ∧ square n m' ∧
        ∀ i' j', getcell m' i' j'
                 = if decide (i' = i ∧ j' = j) then Some v else getcell m i' j'.
Proof.
  intros Hsq Hi Hj. pose proof Hsq as [Hlen Hrows].
  destruct (lookup_lt_is_Some_2 m i ltac:(lia)) as [row Hrow].
  pose proof (Hrows i row Hrow) as Hl.
  exists (<[i := <[j := v]> row]> m). split; [|split].
  - unfold setitem2. rewrite Hrow. rewrite decide_True by lia. done.
  - by apply square_update.
  - intros i' j'. apply getcell_update; [done | lia].
Qed.

Lemma bind_ext {A B} (m : M A) (f g : A → M B) :
  (∀ a, f a = g a) → bind m f = bind m g.
Proof. intros H. destruct m as [t [e|a]]; simpl; [done | by rewrite H]. Qed.

Lemma foldM_fmap {A B C} (body : A → C → M A) (h : B → C) xs :
  ∀ acc, foldM body acc (h <$> xs) = foldM (λ a x, body a (h x)) acc xs.
Proof.
  induction xs as [|x xs IH]; intros acc; [done|].
  rewrite fmap_cons, !foldM_cons. by apply bind_ext.
Qed.

(** Two nested loops are one loop over the pairs. *)
Lemma foldM_nested {A B C} (f : B → A → C → M A) (xs : list B) (ys : list C) :
  ∀ acc, foldM (λ a x, foldM (f x) a ys) acc xs
         = foldM (λ a xy, f xy.1 a xy.2) acc (x ← xs; pair x <$> ys).
Proof.
  induction xs as [|x xs IH]; intros acc; [done|].
  rewrite foldM_cons, bind_cons, foldM_app, foldM_fmap. simpl.
  by apply bind_ext.
Qed.

Lemma matriz_de_cells spl nos :
  matriz_de spl nos
  = foldM (λ m ij, matriz_cell spl nos ij.1 m ij.2)
          (replicate (length nos) (replicate (length nos) 0%Z))
          (cells (length nos)).
Proof.
  unfold matriz_de, cells. cbv zeta.
  apply (foldM_nested (λ i m j, matriz_cell spl nos i m j)).
Qed.

Lemma elem_of_cells n i j : (i, j) ∈ cells n ↔ i < n ∧ j < n.
Proof.
  unfold cells. rewrite list_elem_of_bind. split.
  - intros (i' & Hin & Hi'). apply list_elem_of_fmap in Hin as (j' & [= -> ->] & Hj').
    apply elem_of_seq in Hi', Hj'. lia.
  - intros [Hi Hj]. exists i. split.
    + apply list_elem_of_fmap. exists j. split; [done|]. apply elem_of_seq. lia.
    + apply elem_of_seq. lia.
Qed.

Lemma no_path_abort_bind_l spl {A B} (m : M A) (f : A → M B) :
  no_path_abort spl m → no_path_abort spl (bind m f).
Proof.
  intros (a & b & Hr & Hn & Hl). exists a, b.
  rewrite result_bind, trace_bind, Hr. by rewrite app_nil_r.
Qed.

Lemma no_path_abort_bind_r spl {A B} (m : M A) (f : A → M B) x :
  result m = inr x → no_path_abort spl (f x) → no_path_abort spl (bind m f).
Proof.
  intros Hx (a & b & Hr & Hn & Hl). exists a, b.
  rewrite result_bind, trace_bind, Hx. split; [done|]. split; [done|].
  destruct (trace (f x)) as [|e t] eqn:Ht using rev_ind; [done|].
  rewrite app_assoc, last_snoc. by rewrite last_snoc in Hl.
Qed.

(** One cell: nothing on the diagonal, otherwise one query and one write. *)
Lemma matriz_cell_run spl nos n m i j :
  length nos = n → square n m → i < n → j < n →
  (i = j ∧ matriz_cell spl nos i m j = ret m) ∨
  (i ≠ j ∧ ∃ a b, nos !! i = Some a ∧ nos !! j = Some b ∧
     ((∃ q m', spl a b = Some q ∧
               matriz_cell spl nos i m j = ([ShortestPathLength a b], inr m') ∧
               square n m' ∧
               ∀ i' j', getcell m' i' j'
                        = if decide (i' = i ∧ j' = j) then Some (int q)
                          else getcell m i' j') ∨
      (spl a b = None ∧
       matriz_cell spl nos i m j
       = ([ShortestPathLength a b], inl (NetworkXNoPath a b))))).
Proof.
  intros Hlen Hsq Hi Hj. unfold matriz_cell.
  destruct (decide (i ≠ j)) as [Hne|Heq]; [right | left; split; [lia | done]].
  split; [done|].
  destruct (lookup_lt_is_Some_2 nos i ltac:(lia)) as [a Ha].
  destruct (lookup_lt_is_Some_2 nos j ltac:(lia)) as [b Hb].
  exists a, b. do 2 (split; [done|]). unmonad.
  rewrite (getitem_Some _ _ _ Ha), bind_ret, (getitem_Some _ _ _ Hb), bind_ret.
  unfold call_shortest_path_length. unmonad.
  destruct (spl a b) as [q|] eqn:Hq; [left | right; by split].
  destruct (setitem2_run n m i j (int q) Hsq Hi Hj) as (m' & Hset & Hsq' & Hget).
  exists q, m'. split; [done|]. cbv [bind emit ret fst snd app].
  rewrite Hset. by split.
Qed.

(** The cell loop: every listed cell is filled, or the run stops at the
    first query without an answer. *)
Lemma cells_run spl nos n ps :
  length nos = n →
  (∀ i j, (i, j) ∈ ps → i < n ∧ j < n) →
  ∀ m, square n m →
    let r := foldM (λ m ij, matriz_cell spl nos ij.1 m ij.2) m ps in
    (∃ m', result r = inr m' ∧ square n m' ∧ filled spl nos ps m m') ∨
    no_path_abort spl r.
Proof.
  intros Hlen. induction ps as [|[i j] ps IH]; intros Hps m Hsq; cbv zeta.
  - left. exists m. split; [done|]. split; [done|]. intros i j.
    rewrite decide_False; [done|]. intros [H _]. by apply elem_of_nil in H.
  - rewrite foldM_cons. cbn [fst snd].
    destruct (Hps i j ltac:(left)) as [Hi Hj].
    assert (∀ i' j', (i', j') ∈ ps → i' < n ∧ j' < n) as Hps'.
    { intros i' j' H. apply Hps. by right. }
    destruct (matriz_cell_run spl nos n m i j Hlen Hsq Hi Hj)
      as [[-> ->] | (Hne & a & b & Ha & Hb &
                     [(q & m1 & Hq & -> & Hsq1 & Hget) | [Hq ->]])].
    + rewrite bind_ret. destruct (IH Hps' m Hsq) as [(m' & Hr & Hsq' & Hf)|Hab];
        [left | by right].
      exists m'. split; [done|]. split; [done|]. intros i' j'.
      specialize (Hf i' j').
      destruct (decide ((i', j') ∈ ps ∧ i' ≠ j')) as [[Hin Hd]|Hn].
      * rewrite decide_True; [done|]. split; [by right | done].
      * rewrite decide_False; [done|].
        intros [[[= -> ->]|Hin]%elem_of_cons Hd]; tauto.
    + destruct (IH Hps' m1 Hsq1) as [(m' & Hr & Hsq' & Hf)|Hab].
      * left. exists m'. split; [by rewrite result_bind|]. split; [done|].
        intros i' j'. specialize (Hf i' j'). specialize (Hget i' j').
        destruct (decide ((i', j') ∈ ps ∧ i' ≠ j')) as [[Hin Hd]|Hn].
        -- rewrite decide_True; [done|]. split; [by right | done].
        -- destruct (decide (i' = i ∧ j' = j)) as [[-> ->]|Hij].
           ++ rewrite decide_True; [|split; [left | done]].
              exists a, b, q. by rewrite Hf.
           ++ rewrite decide_False; [congruence|].
              intros [[[= -> ->]|Hin]%elem_of_cons Hd]; tauto.
      * right. by apply (no_path_abort_bind_r spl _ _ m1).
    + right. apply no_path_abort_bind_l. by exists a, b.
Qed.

(** The matrix: all truncated lengths, or a stop at the first missing path. *)
Lemma matriz_de_run spl nos :
  let n := length nos in
  let r := matriz_de spl nos in
  (∃ m, result r = inr m ∧ square n m ∧
        ∀ i j, i < n → j < n →
          if decide (i = j) then getcell m i j = Some 0%Z
          else ∃ a b q, nos !! i = Some a ∧ nos !! j = Some b ∧
                        spl a b = Some q ∧ getcell m i j = Some (int q)) ∨
  no_path_abort spl r.
Proof.
  cbv zeta. rewrite matriz_de_cells.
  destruct (cells_run spl nos (length nos) (cells (length nos)) eq_refl
              (λ i j H, proj1 (elem_of_cells _ i j) H)
              _ (square_zeros (length nos)))
    as [(m & Hr & Hsq & Hf)|Hab]; [left | by right].
  exists m. split; [done|]. split; [done|]. intros i j Hi Hj.
  specialize (Hf i j). destruct (decide (i = j)) as [->|Hne].
  - rewrite decide_False in Hf by tauto. by rewrite Hf, getcell_zeros.
  - rewrite decide_True in Hf; [done|]. split; [|done]. by apply elem_of_cells.
Qed.

Lemma matriz_de_trace spl nos :
  Forall (λ e, ∃ i j a b, i ≠ j ∧ nos !! i = Some a ∧ nos !! j = Some b ∧
                          e = ShortestPathLength a b)
         (trace (matriz_de spl nos)).
Proof.
  rewrite matriz_de_cells. apply foldM_trace_Forall. intros m [i j] _.
  cbn [fst snd]. unfold matriz_cell.
  destruct (decide (i ≠ j)) as [Hne|]; [|constructor]. unmonad.
  unfold getitem. destruct (nos !! i) as [a|] eqn:Ha; [|constructor].
  rewrite bind_ret. destruct (nos !! j) as [b|] eqn:Hb; [|constructor].
  rewrite bind_ret. apply bind_trace_Forall.
  - unfold call_shortest_path_length. unmonad.
    assert (∃ i j a0 b0, i ≠ j ∧ nos !! i = Some a0 ∧ nos !! j = Some b0 ∧
                         ShortestPathLength a b = ShortestPathLength a0 b0)
      by (by exists i, j, a, b).
    destruct (spl a b); repeat constructor; done.
  - intros d. unfold setitem2. repeat case_match; constructor.
Qed.

(** ** The whole script *)

(** Step 4 asks for the nearest node of every waypoint, in order. *)
Lemma nos_de_run nearest coordenadas :
  nos_de nearest coordenadas
  = ((λ c : coord, NearestNodes c.2 c.1) <$> coordenadas,
     inr ((λ c : coord, nearest c.2 c.1) <$> coordenadas)).
Proof.
  unfold nos_de. induction coordenadas as [|[lat lon] cs IH]; [done|].
  cbn [forM]. rewrite IH. unmonad. simpl. by rewrite app_nil_r.
Qed.

Section MainFacts.

Variable nearest : Q → Q → node.
Variable spl : node → node → option Q.
Variable sp : node → node → option (list node).
Variable ged : node → node → option (list edge_attr).
Variable fl : float_ops.
Variable Solve : list (list Z) → option assignment.
Variables (fuel : nat) (enderecos : list string) (coordenadas : list coord).

Let run := main nearest spl sp ged fl Solve fuel enderecos coordenadas.

(** A run that reaches the end went through every stage. *)
Lemma main_inr r :
  result run = inr (Some r) →
  nos r = (λ c : coord, nearest c.2 c.1) <$> coordenadas ∧
  result (matriz_de spl (nos r)) = inr (matriz r) ∧
  result (resolver_tsp Solve fuel (matriz r)) = inr (Some (rota_otimizada r)) ∧
  result (forM (getitem coordenadas) (rota_otimizada r))
    = inr (rota_coordenadas r) ∧
  result (forM (getitem (nos r)) (rota_otimizada r)) = inr (rota_nos r) ∧
  result (rota_final_de sp (rota_nos r)) = inr (rota_final r) ∧
  result (distancia_de ged fl (rota_final r)) = inr (distancia_total_metros r) ∧
  distancia_total_km r = fdiv fl (distancia_total_metros r) 1000%Q.
Proof.
  unfold run, main. unmonad. rewrite nos_de_run. intros H.
  apply bind_inr in H as (ns & Hns & H). simpl in Hns. injection Hns as <-.
  apply bind_inr in H as (m & Hm & H).
  apply bind_inr in H as (rota & Hrota & H).
  apply bind_inr in H as (coords & Hcoords & H).
  apply bind_inr in H as ([] & _ & H).
  destruct rota as [[|i0 rota]|]; [done| |done].
  apply bind_inr in H as (rn & Hrn & H).
  apply bind_inr in H as (rf & Hrf & H).
  apply bind_inr in H as (total & Htotal & H).
  simpl in H. injection H as <-. simpl. done.
Qed.

(** A run whose stages all complete reaches the end. *)
Lemma main_forward m rota coords rn rf total :
  let ns := (λ c : coord, nearest c.2 c.1) <$> coordenadas in
  result (matriz_de spl ns) = inr m →
  result (resolver_tsp Solve fuel m) = inr (Some rota) →
  rota ≠ [] →
  result (forM (getitem coordenadas) rota) = inr coords →
  result (relatorio enderecos (Some rota) coords) = inr tt →
  result (forM (getitem ns) rota) = inr rn →
  result (rota_final_de sp rn) = inr rf →
  result (distancia_de ged fl rf) = inr total →
  result run
  = inr (Some (Resultado ns m rota coords rn rf total (fdiv fl total 1000%Q))).
Proof.
  intros ns Hm Hrota Hne Hcoords Hrel Hrn Hrf Htotal.
  unfold run, main. unmonad. rewrite nos_de_run.
  rewrite result_bind. cbn [result snd]. fold ns.
  rewrite result_bind, Hm, result_bind, Hrota.
  rewrite result_bind. cbn [rota_coordenadas_de]. rewrite Hcoords.
  rewrite result_bind, Hrel.
  destruct rota as [|i0 rota]; [done|].
  by rewrite result_bind, Hrn, result_bind, Hrf, result_bind, Htotal.
Qed.


End MainFacts.

(** ** Traces of the stages *)

Lemma bind_trace_Forall_inr {A B} (P : event → Prop) (m : M A) (f : A → M B) :
  Forall P (trace m) → (∀ a, result m = inr a → Forall P (trace (f a))) →
  Forall P (trace (bind m f)).
Proof.
  intros Hm Hf. rewrite trace_bind. apply Forall_app. split; [done|].
  destruct (result m) eqn:Hr; [constructor | by apply Hf].
Qed.

Lemma walk_trace fuel n s :
  ∀ index rota, trace (walk fuel n s index rota) = [].
Proof.
  induction fuel as [|fuel IH]; intros index rota; simpl;
    destruct (Routing.IsEnd n index); done.
Qed.

Lemma resolver_tsp_trace Solve fuel m : trace (resolver_tsp Solve fuel m) = [].
Proof.
  unfold resolver_tsp. destruct (Solve m) as [s|]; [|done]. unmonad.
  rewrite trace_bind, walk_trace. destruct (result _) as [e|rota]; [done|].
  rewrite trace_bind. unfold getitem. by destruct (rota !! 0).
Qed.

Lemma relatorio_trace enderecos rota coords :
  Forall (λ e, ∃ l, e = Print l) (trace (relatorio enderecos rota coords)).
Proof.
  unfold relatorio. destruct rota as [[|i0 rota]|]; try (repeat constructor; by eexists).
  unmonad. apply bind_trace_Forall; [repeat constructor; by eexists|]. intros _.
  apply bind_trace_Forall.
  - apply foldM_trace_Forall. intros _ i _. unfold getitem.
    destruct (enderecos !! i); repeat constructor. by eexists.
  - intros _. apply bind_trace_Forall; [repeat constructor; by eexists|].
    intros _. apply foldM_trace_Forall. intros _ [i [lat lon]] _.
    repeat constructor. by eexists.
Qed.

Lemma rota_final_de_trace sp rn :
  Forall (λ e, ∃ a b, e = ShortestPath a b ∧ a ∈ rn ∧ b ∈ rn)
         (trace (rota_final_de sp rn)).
Proof.
  unfold rota_final_de. apply foldM_trace_Forall. intros rf i _.
  unfold leg. unmonad. unfold getitem.
  destruct (rn !! i) as [a|] eqn:Ha; [|constructor]. rewrite bind_ret.
  destruct (rn !! (i + 1)) as [b|] eqn:Hb; [|constructor]. rewrite bind_ret.
  apply bind_trace_Forall.
  - unfold call_shortest_path. unmonad.
    assert (∃ a0 b0, ShortestPath a b = ShortestPath a0 b0 ∧ a0 ∈ rn ∧ b0 ∈ rn).
    { exists a, b. split; [done|]. split; by eapply list_elem_of_lookup_2. }
    destruct (sp a b); repeat constructor; done.
  - intros p. apply bind_trace_Forall; [|intros; constructor].
    unfold seam. destruct (last rf); [|constructor]. unmonad.
    unfold getitem. destruct (p !! 0); [|constructor]. rewrite bind_ret.
    destruct (decide _); constructor.
Qed.

Lemma distancia_de_trace ged fl rf :
  Forall (λ e, ∃ u v, e = GetEdgeData u v) (trace (distancia_de ged fl rf)).
Proof.
  unfold distancia_de. apply foldM_trace_Forall. intros t uv _.
  rewrite soma_aresta_run. repeat constructor. by eexists _, _.
Qed.

Lemma main_trace nearest spl sp ged fl Solve fuel enderecos coordenadas :
  let ns := (λ c : coord, nearest c.2 c.1) <$> coordenadas in
  ∃ rest,
    trace (main nearest spl sp ged fl Solve fuel enderecos coordenadas)
    = ((λ c : coord, NearestNodes c.2 c.1) <$> coordenadas) ++ rest ∧
    Forall (shared_nodes ns) rest.
Proof.
  intros ns. unfold main. unmonad. rewrite nos_de_run.
  eexists. split; [reflexivity|]. fold ns.
  apply bind_trace_Forall.
  { eapply Forall_impl; [apply matriz_de_trace|].
    intros e (i & j & a & b & Hne & Ha & Hb & ->). by exists i, j. }
  intros m. apply bind_trace_Forall; [by rewrite resolver_tsp_trace|].
  intros rota. apply bind_trace_Forall.
  { destruct rota as [r|]; [|constructor]. simpl.
    by rewrite (proj1 (forM_getitem coordenadas r)). }
  intros coords. apply bind_trace_Forall.
  { eapply Forall_impl; [apply relatorio_trace|]. by intros e [l ->]. }
  intros _. destruct rota as [[|i0 rota]|]; try constructor.
  apply bind_trace_Forall_inr; [by rewrite (proj1 (forM_getitem _ _))|].
  intros rn Hrn. apply forM_getitem in Hrn.
  assert (∀ a, a ∈ rn → ∃ i, ns !! i = Some a) as Hin.
  { intros a Ha. apply list_elem_of_lookup in Ha as [k Hk].
    destruct (Forall2_lookup_r _ _ _ _ _ Hrn Hk) as (i & _ & Hi). by exists i. }
  apply bind_trace_Forall.
  { eapply Forall_impl; [apply rota_final_de_trace|].
    intros e (a & b & -> & Ha & Hb).
    destruct (Hin a Ha) as [i Hi]. destruct (Hin b Hb) as [j Hj].
    by exists i, j. }
  intros rf. apply bind_trace_Forall.
  { eapply Forall_impl; [apply distancia_de_trace|]. by intros e (u & v & ->). }
  intros total. repeat constructor.
Qed.

(** ** The assembled route against the matrix *)

Lemma length_pares {A} (l : list A) : length (pares l) = length l - 1.
Proof.
  induction l as [|x [|y l] IH]; [done | done |].
  rewrite pares_cons2. simpl length in *. lia.
Qed.

Lemma pares_Forall2 {A B} (R : A → B → Prop) l k :
  Forall2 R l k →
  Forall2 (λ x y, R x.1 y.1 ∧ R x.2 y.2) (pares l) (pares k).
Proof.
  induction 1 as [|x y l k Hxy Hlk IH]; [constructor|].
  destruct Hlk as [|x' y' l k Hxy' Hlk]; [constructor|].
  rewrite !pares_cons2. constructor; [done | apply IH].
Qed.

Lemma Forall2_with_r {A B} (R : A → B → Prop) (P : B → Prop) l k :
  Forall2 R l k → Forall P k → Forall2 (λ x y, R x y ∧ P y) l k.
Proof.
  induction 1 as [|x y l k Hxy _ IH]; intros Hk; [constructor|].
  apply Forall_cons in Hk as [Hy Hk]. constructor; [done | by apply IH].
Qed.

Section Legs.

Variable ged : node → node → option (list edge_attr).
Variable sp : node → node → option (list node).
Hypothesis Hends :
  ∀ a b p, sp a b = Some p → head p = Some a ∧ last p = Some b.
Variable rn : list node.

(** After [k] legs the route ends at stop [k] and weighs what the [k]
    paths weigh. *)
Lemma legs_prefix k :
  ∀ rf, result (foldM (leg sp rn) [] (seq 0 k)) = inr rf →
        (k = 0 ∧ rf = []) ∨
        (0 < k ∧ last rf = rn !! k ∧
         Forall (λ ab, is_Some (sp ab.1 ab.2)) (take k (pares rn)) ∧
         (Qsum (parcelas ged rf)
          == Qsum (peso_caminho ged sp <$> take k (pares rn)))%Q).
Proof.
  induction k as [|k IH]; intros rf Hrun.
  - left. simpl in Hrun. by injection Hrun as <-.
  - right. rewrite seq_S, foldM_app in Hrun. change (0 + k) with k in Hrun.
    apply bind_inr in Hrun as (rfk & Hk & Hrun).
    rewrite foldM_cons in Hrun. apply bind_inr in Hrun as (rf' & Hleg & Hrun).
    simpl in Hrun. injection Hrun as <-.
    apply leg_inr in Hleg as (a & b & p & Ha & Hb & Hp & Hcase).
    rewrite Nat.add_1_r in Hb.
    destruct (Hends a b p Hp) as [Hhead Hlast].
    pose proof (pares_lookup rn k a b Ha Hb) as Hpar.
    rewrite (take_S_r _ _ _ Hpar), fmap_app, Qsum_app, Forall_app.
    assert (peso_caminho ged sp (a, b) = Qsum (parcelas ged p)) as Hpeso
      by (unfold peso_caminho; simpl; by rewrite Hp).
    cbn [fmap list_fmap]. rewrite Hpeso, Qsum_cons, Qsum_nil.
    assert (Forall (λ ab, is_Some (sp ab.1 ab.2)) [(a, b)]) as Hsome
      by (repeat constructor; simpl; by rewrite Hp).
    split; [lia|].
    destruct (IH rfk Hk) as [[-> ->]|(Hpos & Hend & Hall & Hsum)].
    + destruct Hcase as [[_ ->]|[(u & Hu & _)|(u & v & Hu & _)]]; [|done..].
      rewrite Hb, Hlast. split; [done|]. split; [by split|].
      rewrite take_0, fmap_nil, Qsum_nil. lra.
    + rewrite Ha in Hend.
      destruct Hcase
        as [[-> _]|[(u & Hu & Hh & ->)|(u & v & Hu & Hh & Hne & _)]];
        [done | | congruence].
      assert (u = a) as -> by congruence.
      destruct p as [|a' p']; [done|]. simpl in Hh. injection Hh as ->.
      apply last_Some in Hu as [l ->]. simpl tail.
      rewrite <- app_assoc. simpl app. split; [|split; [by split|]].
      * rewrite last_app, Hb. simpl in *. by rewrite Hlast.
      * unfold parcelas in *. rewrite pares_app, fmap_app, Qsum_app. lra.
Qed.

Lemma rota_final_weight rf :
  result (rota_final_de sp rn) = inr rf →
  Forall (λ ab, is_Some (sp ab.1 ab.2)) (pares rn) ∧
  (Qsum (parcelas ged rf) == Qsum (peso_caminho ged sp <$> pares rn))%Q.
Proof.
  intros Hrun. unfold rota_final_de in Hrun.
  pose proof (length_pares rn) as Hlen.
  destruct (legs_prefix _ rf Hrun) as [[Hk ->]|(_ & _ & Hall & Hsum)].
  - rewrite Hk in Hlen. apply nil_length_inv in Hlen. rewrite Hlen.
    split; [constructor | done].
  - by rewrite take_ge in Hall, Hsum by lia.
Qed.

End Legs.

(** Sums whose terms differ by less than [c] differ by less than [c] times
    the number of terms. *)
Lemma Qsum_near (c : Q) xs zs :
  Forall2 (λ x z, (Qabs (x - inject_Z z) < c)%Q) xs zs →
  xs = [] ∨
  (Qabs (Qsum xs - inject_Z (foldr Z.add 0%Z zs))
   < inject_Z (Z.of_nat (length xs)) * c)%Q.
Proof.
  induction 1 as [|x z xs zs Hxz Hrest IH]; [by left|]. right.
  apply Qabs_Qlt_condition in Hxz.
  assert (inject_Z (Z.of_nat (length (x :: xs))) * c
          == inject_Z (Z.of_nat (length xs)) * c + c)%Q as Hstep.
  { cbn [length]. rewrite Nat2Z.inj_succ. unfold Z.succ.
    rewrite inject_Z_plus. change (inject_Z 1) with 1%Q. ring. }
  cbn [foldr]. rewrite Qsum_cons, inject_Z_plus. apply Qabs_Qlt_condition.
  destruct IH as [->|IH].
  - apply Forall2_nil_inv_l in Hrest as ->. rewrite Qsum_nil in *.
    cbn [foldr length] in *. change (inject_Z (Z.of_nat 0)) with 0%Q in Hstep.
    change (inject_Z 0) with 0%Q. lra.
  - apply Qabs_Qlt_condition in IH. lra.
Qed.

Lemma resolver_tsp_inr_length Solve fuel m rota :
  result (resolver_tsp Solve fuel m) = inr (Some rota) → 2 ≤ length rota.
Proof.
  unfold resolver_tsp. destruct (Solve m) as [s|]; [|done]. unmonad.
  intros H. apply bind_inr in H as (r0 & _ & H).
  apply bind_inr in H as (i0 & Hi0 & H). apply getitem_inr in Hi0.
  simpl in H. injection H as <-. apply lookup_lt_Some in Hi0.
  rewrite length_app. simpl. lia.
Qed.

(** ** The demonstration network *)

Lemma Demo_paths_no_stutter a b p :
  Demo.shortest_path a b = Some p → no_stutter p.
Proof.
  unfold Demo.shortest_path. intros H.
  repeat case_match; simplify_eq; simpl; repeat split; done.
Qed.

Lemma Demo_lengths_nonneg a b q :
  Demo.shortest_path_length a b = Some q → (0 <= q)%Q.
Proof.
  unfold Demo.shortest_path_length. intros H.
  repeat case_match; simplify_eq; unfold Qle; simpl; lia.
Qed.

Lemma Demo_run_fim : result (Demo.run 3) = inr (Some Demo.fim).
Proof. vm_compute. reflexivity. Qed.

Lemma Demo_paths_ends a b p :
  Demo.shortest_path a b = Some p → head p = Some a ∧ last p = Some b.
Proof.
  unfold Demo.shortest_path. intros H. repeat case_match; simplify_eq; done.
Qed.

Lemma Demo_paths_weigh_their_length a b p q :
  Demo.shortest_path a b = Some p → Demo.shortest_path_length a b = Some q →
  (Qabs (q - Qsum (parcelas Demo.get_edge_data p)) <= 0)%Q.
Proof.
  unfold Demo.shortest_path, Demo.shortest_path_length. intros Hp Hq.
  repeat case_match; simplify_eq; vm_compute; done.
Qed.

Lemma Demo_path_to_self a p : Demo.shortest_path a a = Some p → p = [a].
Proof.
  unfold Demo.shortest_path. intros H. repeat case_match; simplify_eq; done.
Qed.

(** ** Further properties of the script *)

(** *** The distance matrix *)

Lemma consultas_cons nos i j ps :
  consultas nos ((i, j) :: ps) = consultas nos [(i, j)] ++ consultas nos ps.
Proof. unfold consultas. rewrite !bind_cons. simpl. by rewrite app_nil_r. Qed.

Lemma consultas_app nos ps qs :
  consultas nos (ps ++ qs) = consultas nos ps ++ consultas nos qs.
Proof. unfold consultas. apply bind_app. Qed.

Lemma call_shortest_path_length_inr spl a b q :
  result (call_shortest_path_length spl a b) = inr q → spl a b = Some q.
Proof.
  unfold call_shortest_path_length. unmonad. destruct (spl a b); simpl; congruence.
Qed.

Lemma matriz_cell_trace spl nos i m j m' :
  result (matriz_cell spl nos i m j) = inr m' →
  trace (matriz_cell spl nos i m j) = consultas nos [(i, j)].
Proof.
  unfold matriz_cell, consultas. rewrite bind_cons. cbn [fst snd].
  destruct (decide (i ≠ j)) as [Hne|Heq]; [|done]. unmonad. intros H.
  apply bind_inr in H as (a & Ha & H). apply getitem_inr in Ha.
  apply bind_inr in H as (b & Hb & H). apply getitem_inr in Hb.
  apply bind_inr in H as (q & Hq & H).
  apply call_shortest_path_length_inr in Hq.
  rewrite Ha, Hb. rewrite (getitem_Some _ _ _ Ha), bind_ret.
  rewrite (getitem_Some _ _ _ Hb), bind_ret, trace_bind.
  unfold call_shortest_path_length in *. unmonad. rewrite Hq in *.
  cbn [bind emit ret fst snd trace result app] in *.
  unfold setitem2 in *. destruct (m !! i) as [row|]; [|done].
  destruct (decide (j < length row)); done.
Qed.

Lemma cells_trace spl nos ps :
  ∀ m m', result (foldM (λ m ij, matriz_cell spl nos ij.1 m ij.2) m ps) = inr m' →
          trace (foldM (λ m ij, matriz_cell spl nos ij.1 m ij.2) m ps)
          = consultas nos ps.
Proof.
  induction ps as [|[i j] ps IH]; intros m m' Hrun; [done|].
  rewrite foldM_cons in Hrun |- *. cbn [fst snd] in *.
  apply bind_inr in Hrun as (m1 & Hm1 & Hrun).
  rewrite trace_bind, Hm1, (matriz_cell_trace _ _ _ _ _ _ Hm1), (IH _ _ Hrun).
  by rewrite (consultas_cons nos i j ps).
Qed.

Lemma filter_ne_seq i len :
  ∀ start, length (filter (λ j, j ≠ i) (seq start len))
           = if decide (start ≤ i < start + len) then len - 1 else len.
Proof.
  induction len as [|len IH]; intros start.
  - simpl. by destruct (decide _).
  - cbn [seq]. rewrite filter_cons. specialize (IH (S start)).
    destruct (decide (start ≠ i)); cbn [length]; rewrite IH;
      repeat case_decide; lia.
Qed.

Lemma consultas_row nos n i js :
  length nos = n → i < n → Forall (λ j, j < n) js →
  length (consultas nos (pair i <$> js)) = length (filter (λ j, j ≠ i) js).
Proof.
  intros Hlen Hi. induction 1 as [|j js Hj _ IH]; [done|].
  rewrite fmap_cons, consultas_cons, length_app, IH, filter_cons.
  unfold consultas. rewrite bind_cons. cbn [fst snd].
  destruct (lookup_lt_is_Some_2 nos i ltac:(lia)) as [a ->].
  destruct (lookup_lt_is_Some_2 nos j ltac:(lia)) as [b ->].
  destruct (decide (i ≠ j)), (decide (j ≠ i)); simpl; lia.
Qed.

Lemma consultas_count nos n :
  length nos = n → length (consultas nos (cells n)) = n * (n - 1).
Proof.
  intros Hlen. unfold cells.
  assert (∀ l, Forall (λ i, i < n) l →
               length (consultas nos (i ← l; pair i <$> seq 0 n))
               = length l * (n - 1)) as Hrows.
  { induction 1 as [|i l Hi _ IH]; [done|].
    rewrite bind_cons, consultas_app, length_app, IH.
    rewrite (consultas_row nos n i); [|done|done|].
    - rewrite filter_ne_seq. rewrite decide_True by lia. simpl. lia.
    - apply Forall_forall. intros j Hj%elem_of_seq. lia. }
  rewrite Hrows, length_seq; [done|].
  apply Forall_forall. intros i Hi%elem_of_seq. lia.
Qed.

(** X1. The matrix is built exactly when every ordered pair of distinct
    waypoints has a shortest-path length between its nodes. *)
Theorem X1_matriz_built_iff_all_pairs_reachable
        (spl : node → node → option Q) (nos : list node) :
  (∃ m, result (matriz_de spl nos) = inr m) ↔
  (∀ i j a b, i ≠ j → nos !! i = Some a → nos !! j = Some b →
              is_Some (spl a b)).
Proof.
  destruct (matriz_de_run spl nos) as [(m & Hm & _ & Hcells)|Hab]; split.
  - intros _ i j a b Hne Ha Hb.
    specialize (Hcells i j (lookup_lt_Some _ _ _ Ha) (lookup_lt_Some _ _ _ Hb)).
    rewrite decide_False in Hcells by done.
    destruct Hcells as (a' & b' & q & Ha' & Hb' & Hq & _).
    exists q. congruence.
  - intros _. by exists m.
  - intros [m Hm]. destruct Hab as (a & b & Hr & _). congruence.
  - intros Hall. exfalso. destruct Hab as (a & b & _ & Hnone & Hlast).
    pose proof (matriz_de_trace spl nos) as Htrace.
    apply last_Some in Hlast as [t Ht]. rewrite Ht in Htrace.
    apply Forall_app in Htrace as [_ Hq]. apply Forall_singleton in Hq
      as (i & j & a' & b' & Hne & Ha & Hb & [= -> ->]).
    destruct (Hall i j a' b' Hne Ha Hb) as [q Hq]. congruence.
Qed.

(** X2. A matrix that is built is square of the size of the waypoint list
    with a zero diagonal, and building it asks for exactly one length per
    ordered pair of distinct waypoints, row by row: [n * (n - 1)] queries,
    none for the diagonal. *)
Theorem X2_matriz_shape_and_queries
        (spl : node → node → option Q) (nos : list node) (m : list (list Z)) :
  result (matriz_de spl nos) = inr m →
  square (length nos) m ∧
  (∀ i, i < length nos → getcell m i i = Some 0%Z) ∧
  trace (matriz_de spl nos) = consultas nos (cells (length nos)) ∧
  length (trace (matriz_de spl nos)) = length nos * (length nos - 1).
Proof.
  intros Hm.
  destruct (matriz_de_run spl nos) as [(m' & Hm' & Hsq & Hcells)|Hab];
    [|destruct Hab as (a & b & Hr & _); congruence].
  rewrite Hm in Hm'. injection Hm' as <-.
  assert (trace (matriz_de spl nos) = consultas nos (cells (length nos))) as Ht.
  { rewrite matriz_de_cells in Hm |- *. by eapply cells_trace. }
  split; [done|]. split; [|split; [done|]].
  - intros i Hi. specialize (Hcells i i Hi Hi). by rewrite decide_True in Hcells.
  - rewrite Ht. by apply consultas_count.
Qed.

Lemma X2_witness :
  square 3 (matriz Demo.fim) ∧
  (∀ i, i < 3 → getcell (matriz Demo.fim) i i = Some 0%Z) ∧
  trace (matriz_de Demo.shortest_path_length [1; 2; 3]%Z)
  = consultas [1; 2; 3]%Z (cells 3) ∧
  length (trace (matriz_de Demo.shortest_path_length [1; 2; 3]%Z)) = 3 * (3 - 1).
Proof.
  apply (X2_matriz_shape_and_queries Demo.shortest_path_length [1; 2; 3]%Z
           (matriz Demo.fim)).
  reflexivity.
Defined.

(** *** The tour loop without the solver's promise *)

Lemma walk_inr fuel n s :
  ∀ index rota r,
    result (walk fuel n s index rota) = inr r →
    ∃ k, k ≤ fuel ∧ (∀ t, t < k → Nat.iter t s index < n) ∧
         n ≤ Nat.iter k s index ∧ r = rota ++ orbit s index k.
Proof.
  induction fuel as [|fuel IH]; intros index rota r Hrun; simpl in Hrun;
    unfold Routing.IsEnd, Routing.IndexToNode in Hrun;
    destruct (Nat.leb_spec n index) as [Hend|Hlt].
  - injection Hrun as <-. exists 0. split; [lia|]. split; [lia|].
    split; [done|]. unfold orbit. simpl. by rewrite app_nil_r.
  - done.
  - injection Hrun as <-. exists 0. split; [lia|]. split; [lia|].
    split; [done|]. unfold orbit. simpl. by rewrite app_nil_r.
  - rewrite (proj2 (Nat.ltb_lt _ _) Hlt) in Hrun.
    apply IH in Hrun as (k & Hk & Hbelow & Hreach & ->).
    exists (S k). split; [lia|]. split; [|split].
    + intros [|t] Ht; [done|]. rewrite Nat.iter_succ_r. apply Hbelow. lia.
    + by rewrite Nat.iter_succ_r.
    + by rewrite orbit_cons, <- app_assoc.
Qed.

Lemma walk_inl fuel n s :
  ∀ index rota e, result (walk fuel n s index rota) = inl e → e = OutOfFuel.
Proof.
  induction fuel as [|fuel IH]; intros index rota e Hrun; simpl in Hrun;
    destruct (Routing.IsEnd n index); try done.
  - by injection Hrun as <-.
  - by eapply IH.
Qed.

(** X3. The tour loop returns exactly when the successors of the index it
    starts from reach an end index within the turns it is given, and then
    it has appended the indices met before that one; otherwise it is still
    running when the turns are used up.  It raises nothing and prints
    nothing. *)
Theorem X3_walk_returns_iff_route_ends
        (fuel n : nat) (s : assignment) (index : nat) (rota : list nat) :
  (∀ r, result (walk fuel n s index rota) = inr r ↔
        ∃ k, k ≤ fuel ∧ (∀ t, t < k → Nat.iter t s index < n) ∧
             n ≤ Nat.iter k s index ∧ r = rota ++ orbit s index k) ∧
  (∀ e, result (walk fuel n s index rota) = inl e → e = OutOfFuel) ∧
  trace (walk fuel n s index rota) = [].
Proof.
  split; [|split].
  - intros r. split; [apply walk_inr|].
    intros (k & Hk & Hbelow & Hreach & ->).
    by rewrite (walk_orbit n s k fuel index rota Hbelow Hreach Hk).
  - apply walk_inl.
  - apply walk_trace.
Qed.

Lemma orbit_below_n n s index k :
  (∀ t, t < k → Nat.iter t s index < n) → Forall (λ i, i < n) (orbit s index k).
Proof.
  intros Hbelow. apply Forall_forall. intros x Hx.
  apply list_elem_of_lookup in Hx as [t Ht].
  pose proof (lookup_lt_Some _ _ _ Ht) as Hl. rewrite orbit_length in Hl.
  rewrite orbit_lookup in Ht by done. injection Ht as <-. by apply Hbelow.
Qed.

Lemma resolver_tsp_shape (Solve : list (list Z) → option assignment)
      (fuel : nat) (matriz : list (list Z)) (rota : list nat) :
  result (resolver_tsp Solve fuel matriz) = inr (Some rota) →
  (∃ meio, rota = 0 :: meio ++ [0]) ∧
  (0 < length matriz → Forall (λ i, i < length matriz) rota).
Proof.
  unfold resolver_tsp. destruct (Solve matriz) as [s|]; [|done].
  unmonad. intros H. apply bind_inr in H as (r0 & Hwalk & H).
  apply bind_inr in H as (i0 & Hi0 & H). apply getitem_inr in Hi0.
  simpl in H. injection H as <-.
  apply walk_inr in Hwalk as (k & _ & Hbelow & _ & ->). simpl in Hi0.
  destruct k as [|k]; [done|]. rewrite orbit_cons in Hi0 |- *.
  simpl in Hi0. injection Hi0 as <-. unfold Routing.Start. split.
  - by exists (orbit s (s 0) k).
  - intros Hpos. rewrite <- orbit_cons. apply Forall_app. split.
    + by apply orbit_below_n.
    + by apply Forall_singleton.
Qed.



(** *** The tour and the solver's objective *)

Lemma pares_fmap {A B} (f : A → B) (l : list A) :
  pares (f <$> l) = (λ xy : A * A, (f xy.1, f xy.2)) <$> pares l.
Proof.
  induction l as [|x [|y l] IH]; [done | done |].
  rewrite !fmap_cons, !pares_cons2, fmap_cons. f_equal.
  by rewrite <- IH, fmap_cons.
Qed.

Lemma resolver_tsp_orbit (Solve : list (list Z) → option assignment)
      (matriz : list (list Z)) (solution : assignment) (fuel : nat) :
  0 < length matriz →
  Solve matriz = Some solution →
  routing_solution (length matriz) solution →
  length matriz ≤ fuel →
  resolver_tsp Solve fuel matriz
  = ret (Some (Routing.IndexToNode (length matriz)
                 <$> route_indices (length matriz) solution)).
Proof.
  intros Hpos Hsolve Hsol Hfuel.
  destruct (start_orbit _ _ Hsol Hpos) as (meio & Horb & _ & Hlt & Hend).
  unfold resolver_tsp, route_indices, Routing.Start, Routing.End.
  rewrite Hsolve.
  rewrite (walk_orbit _ _ (length matriz)); [| done | by rewrite Hend | done].
  rewrite bind_unfold, bind_ret, fmap_app.
  assert (Routing.IndexToNode (length matriz) <$> orbit solution 0 (length matriz)
          = orbit solution 0 (length matriz)) as ->.
  { rewrite <- (list_fmap_id (orbit solution 0 (length matriz))) at 2.
    apply Forall_fmap_ext.
    eapply Forall_impl; [apply (orbit_below_n _ _ _ _ Hlt)|]. intros i Hi.
    unfold Routing.IndexToNode. by rewrite (proj2 (Nat.ltb_lt _ _) Hi). }
  cbn [fmap list_fmap]. unfold Routing.IndexToNode at 1.
  rewrite Nat.ltb_irrefl. rewrite Horb. reflexivity.
Qed.

(** X5. For a solution that keeps the solver's promise, the tour
    [resolver_tsp] returns is the solution's route read through
    [IndexToNode], and the sum of the matrix entries along the tour is what
    the transit callback charges for the route's arcs, the arc into the end
    index being charged as the way back to waypoint 0. *)
Theorem X5_tour_cost_is_callback_cost
        (Solve : list (list Z) → option assignment)
        (matriz : list (list Z)) (solution : assignment) (fuel : nat) :
  0 < length matriz →
  Solve matriz = Some solution →
  routing_solution (length matriz) solution →
  length matriz ≤ fuel →
  ∃ rota, resolver_tsp Solve fuel matriz = ret (Some rota) ∧
          rota = Routing.IndexToNode (length matriz)
                   <$> route_indices (length matriz) solution ∧
          custo matriz rota
          = route_cost matriz (route_indices (length matriz) solution).
Proof.
  intros Hpos Hsolve Hsol Hfuel. eexists. split; [|split; [reflexivity|]].
  - by apply resolver_tsp_orbit.
  - unfold custo, route_cost, callback.
    by rewrite pares_fmap, <- list_fmap_compose.
Qed.

Lemma X5_witness :
  ∃ rota,
    resolver_tsp Demo.solver 3 (matriz Demo.fim) = ret (Some rota) ∧
    rota = Routing.IndexToNode 3 <$> route_indices 3 Demo.em_ordem ∧
    custo (matriz Demo.fim) rota
    = route_cost (matriz Demo.fim) (route_indices 3 Demo.em_ordem).
Proof.
  apply (X5_tour_cost_is_callback_cost Demo.solver (matriz Demo.fim)
           Demo.em_ordem 3).
  - simpl. lia.
  - reflexivity.
  - apply em_ordem_solution.
  - simpl. lia.
Defined.

(** *** The assembled route *)

Lemma stitch_snoc ps p : ps ≠ [] → stitch (ps ++ [p]) = stitch ps ++ tail p.
Proof.
  destruct ps as [|p0 ps]; [done|]. intros _. simpl.
  rewrite fmap_app, concat_app. simpl. by rewrite app_nil_r, app_assoc.
Qed.

Section Stitching.

Variable sp : node → node → option (list node).
Hypothesis Hends :
  ∀ a b p, sp a b = Some p → head p = Some a ∧ last p = Some b.
Variable rn : list node.

Lemma legs_stitch k :
  ∀ rf, result (foldM (leg sp rn) [] (seq 0 k)) = inr rf →
        ∃ ps, Forall2 (λ ab p, sp ab.1 ab.2 = Some p) (take k (pares rn)) ps ∧
              rf = stitch ps.
Proof.
  induction k as [|k IH]; intros rf Hrun.
  - simpl in Hrun. injection Hrun as <-. exists []. by split; [constructor|].
  - rewrite seq_S, foldM_app in Hrun. change (0 + k) with k in Hrun.
    apply bind_inr in Hrun as (rfk & Hk & Hrun).
    rewrite foldM_cons in Hrun. apply bind_inr in Hrun as (rf' & Hleg & Hrun).
    simpl in Hrun. injection Hrun as <-.
    destruct (IH rfk Hk) as (ps & Hps & ->).
    pose proof (legs_prefix (λ _ _, None) sp Hends rn k _ Hk) as Hinv.
    apply leg_inr in Hleg as (a & b & p & Ha & Hb & Hp & Hcase).
    rewrite Nat.add_1_r in Hb.
    destruct (Hends a b p Hp) as [Hhead _].
    rewrite (take_S_r _ _ _ (pares_lookup rn k a b Ha Hb)).
    exists (ps ++ [p]). split.
    { apply Forall2_app; [done|]. by repeat constructor. }
    destruct Hinv as [[-> Hnil]|(Hpos & Hend & _)].
    + apply Forall2_nil_inv_l in Hps as ->. simpl.
      destruct Hcase as [[_ ->]|[(u & Hu & _)|(u & v & Hu & _)]]; [|done..].
      by rewrite app_nil_r.
    + rewrite Ha in Hend.
      destruct Hcase
        as [[Hnil _]|[(u & Hu & Hh & ->)|(u & v & Hu & Hh & Hne & _)]];
        [by rewrite Hnil in Hend | | congruence].
      symmetry. apply stitch_snoc. intros ->. done.
Qed.

Lemma rota_final_stitch rf :
  result (rota_final_de sp rn) = inr rf →
  ∃ ps, Forall2 (λ ab p, sp ab.1 ab.2 = Some p) (pares rn) ps ∧
        rf = stitch ps.
Proof.
  intros Hrun. unfold rota_final_de in Hrun.
  destruct (legs_stitch _ rf Hrun) as (ps & Hps & ->).
  exists ps. split; [|done].
  by rewrite take_ge in Hps by (rewrite length_pares; lia).
Qed.

Lemma rota_final_ends rf :
  2 ≤ length rn → result (rota_final_de sp rn) = inr rf →
  head rf = head rn ∧ last rf = last rn.
Proof.
  intros Hlen Hrun. split.
  - destruct (rota_final_stitch rf Hrun) as (ps & Hps & ->).
    destruct rn as [|a [|b l]]; simpl in Hlen; [lia | lia |].
    rewrite pares_cons2 in Hps.
    apply Forall2_cons_inv_l in Hps as (p & ps' & Hp & _ & ->).
    simpl in Hp. apply Hends in Hp as [Hhead _].
    destruct p as [|x p]; [done|]. done.
  - unfold rota_final_de in Hrun.
    destruct (legs_prefix (λ _ _, None) sp Hends rn _ rf Hrun)
      as [[Hk _]|(_ & Hend & _)]; [lia|].
    rewrite Hend, last_lookup. f_equal. lia.
Qed.

End Stitching.

Lemma sum_list_cons n l : sum_list (n :: l) = n + sum_list l.
Proof. reflexivity. Qed.

Lemma length_stitch ps :
  Forall (λ p, p ≠ []) ps →
  length (stitch ps) + (length ps - 1) = sum_list (length <$> ps).
Proof.
  destruct 1 as [|p ps Hp Hps]; [done|].
  assert (length (concat (tail <$> ps)) + length ps
          = sum_list (length <$> ps)) as Hrest.
  { induction Hps as [|q ps Hq _ IH]; [done|].
    destruct q as [|x q]; [done|].
    rewrite !fmap_cons, sum_list_cons. cbn [concat tail length].
    rewrite length_app. lia. }
  rewrite fmap_cons, sum_list_cons. unfold stitch. cbn [length].
  rewrite length_app. lia.
Qed.

(** X6. When the graph library's paths run from their first node to their
    second, the assembled sequence is the first leg's path followed by
    every later path without its first node: its length is the sum of the
    paths' lengths less one for each junction. *)
Theorem X6_rota_final_is_stitched_paths
        (sp : node → node → option (list node))
        (rota_nos rota_final : list node) :
  (∀ a b p, sp a b = Some p → head p = Some a ∧ last p = Some b) →
  result (rota_final_de sp rota_nos) = inr rota_final →
  ∃ ps, Forall2 (λ ab p, sp ab.1 ab.2 = Some p) (pares rota_nos) ps ∧
        rota_final = stitch ps ∧
        length rota_final + (length ps - 1) = sum_list (length <$> ps).
Proof.
  intros Hends Hrun.
  destruct (rota_final_stitch sp Hends rota_nos rota_final Hrun)
    as (ps & Hps & ->).
  exists ps. split; [done|]. split; [done|]. apply length_stitch.
  apply (Forall2_Forall_r _ _ _ _ Hps), Forall_forall.
  intros [a b] _ p Hp ->. apply Hends in Hp as [Hhead _]. done.
Qed.

Lemma X6_witness :
  ∃ ps, Forall2 (λ ab p, Demo.shortest_path ab.1 ab.2 = Some p)
                (pares [1; 2; 3; 1]%Z) ps ∧
        [1; 2; 3; 1]%Z = stitch ps ∧
        length [1; 2; 3; 1]%Z + (length ps - 1) = sum_list (length <$> ps).
Proof.
  apply (X6_rota_final_is_stitched_paths Demo.shortest_path
           [1; 2; 3; 1]%Z [1; 2; 3; 1]%Z).
  - apply Demo_paths_ends.
  - reflexivity.
Defined.

Lemma Forall2_ends {A B} (R : A → B → Prop) x xs z l :
  Forall2 R (x :: xs ++ [z]) l →
  ∃ y ys w, l = y :: ys ++ [w] ∧ R x y ∧ Forall2 R xs ys ∧ R z w.
Proof.
  intros H. apply Forall2_cons_inv_l in H as (y & l' & Hxy & H & ->).
  apply Forall2_app_inv_l in H as (ys & lw & Hys & Hz & ->).
  apply Forall2_cons_inv_l in Hz as (w & l'' & Hzw & Hnil & ->).
  apply Forall2_nil_inv_l in Hnil as ->. by exists y, ys, w.
Qed.

(** X7. In a run that reaches the end, with paths that run from their first
    node to their second, the assembled route is closed: it starts and
    ends at the node of waypoint 0. *)
Theorem X7_assembled_route_is_closed
        (nearest : Q → Q → node) (spl : node → node → option Q)
        (sp : node → node → option (list node))
        (ged : node → node → option (list edge_attr)) (fl : float_ops)
        (Solve : list (list Z) → option assignment)
        (fuel : nat) (enderecos : list string) (coordenadas : list coord)
        (r : resultado) :
  (∀ a b p, sp a b = Some p → head p = Some a ∧ last p = Some b) →
  result (main nearest spl sp ged fl Solve fuel enderecos coordenadas)
    = inr (Some r) →
  ∃ n0, nos r !! 0 = Some n0 ∧
        head (rota_final r) = Some n0 ∧ last (rota_final r) = Some n0.
Proof.
  intros Hends Hrun.
  apply main_inr in Hrun as (_ & _ & Hrota & _ & Hrn & Hrf & _).
  apply resolver_tsp_shape in Hrota as [[meio Hshape] _].
  apply forM_getitem in Hrn. rewrite Hshape in Hrn.
  apply Forall2_ends in Hrn as (n0 & ys & n0' & Heq & H0 & _ & H0').
  assert (n0' = n0) as -> by congruence.
  destruct (rota_final_ends sp Hends (rota_nos r) (rota_final r))
    as [Hhead Hlast]; [|done|].
  { rewrite Heq. simpl. rewrite length_app. simpl. lia. }
  exists n0. split; [done|]. rewrite Hhead, Hlast, Heq. split; [done|].
  by rewrite app_comm_cons, last_snoc.
Qed.

Lemma X7_witness :
  ∃ n0, nos Demo.fim !! 0 = Some n0 ∧
        head (rota_final Demo.fim) = Some n0 ∧
        last (rota_final Demo.fim) = Some n0.
Proof.
  apply (X7_assembled_route_is_closed
           Demo.nearest_nodes Demo.shortest_path_length Demo.shortest_path
           Demo.get_edge_data Demo.fl Demo.solver 3 Demo.enderecos Demo.coordenadas
           Demo.fim).
  - apply Demo_paths_ends.
  - apply Demo_run_fim.
Defined.

(** X8. In a run that reaches the end, the coordinate list made for the
    front end has one entry per tour stop, the entry of a stop being the
    coordinate of its waypoint; it starts and ends with the coordinate of
    waypoint 0. *)
Theorem X8_route_coordinates_follow_the_tour
        (nearest : Q → Q → node) (spl : node → node → option Q)
        (sp : node → node → option (list node))
        (ged : node → node → option (list edge_attr)) (fl : float_ops)
        (Solve : list (list Z) → option assignment)
        (fuel : nat) (enderecos : list string) (coordenadas : list coord)
        (r : resultado) :
  result (main nearest spl sp ged fl Solve fuel enderecos coordenadas)
    = inr (Some r) →
  Forall2 (λ i c, coordenadas !! i = Some c)
          (rota_otimizada r) (rota_coordenadas r) ∧
  ∃ c0, coordenadas !! 0 = Some c0 ∧
        head (rota_coordenadas r) = Some c0 ∧
        last (rota_coordenadas r) = Some c0.
Proof.
  intros Hrun.
  apply main_inr in Hrun as (_ & _ & Hrota & Hcoords & _).
  apply resolver_tsp_shape in Hrota as [[meio Hshape] _].
  apply forM_getitem in Hcoords. split; [done|]. rewrite Hshape in Hcoords.
  apply Forall2_ends in Hcoords as (c0 & ys & c0' & Heq & H0 & _ & H0').
  assert (c0' = c0) as -> by congruence.
  exists c0. split; [done|]. rewrite Heq. split; [done|].
  by rewrite app_comm_cons, last_snoc.
Qed.

Lemma X8_witness :
  Forall2 (λ i c, Demo.coordenadas !! i = Some c)
          (rota_otimizada Demo.fim) (rota_coordenadas Demo.fim) ∧
  ∃ c0, Demo.coordenadas !! 0 = Some c0 ∧
        head (rota_coordenadas Demo.fim) = Some c0 ∧
        last (rota_coordenadas Demo.fim) = Some c0.
Proof.
  apply (X8_route_coordinates_follow_the_tour
           Demo.nearest_nodes Demo.shortest_path_length Demo.shortest_path
           Demo.get_edge_data Demo.fl Demo.solver 3 Demo.enderecos Demo.coordenadas
           Demo.fim).
  apply Demo_run_fim.
Defined.

(** *** The distance loop *)

Lemma foldM_single_events {A} (f : A → event) (g : Q → A → Q)
      (body : Q → A → M Q) xs :
  (∀ t x, body t x = ([f x], inr (g t x))) →
  ∀ t0, trace (foldM body t0 xs) = f <$> xs.
Proof.
  intros Hbody. induction xs as [|x xs IH]; intros t0; [done|].
  rewrite foldM_cons, trace_bind, Hbody. cbn [trace result fst snd].
  by rewrite IH.
Qed.

Lemma distancia_de_reads ged fl rota :
  trace (distancia_de ged fl rota)
  = (λ uv : node * node, GetEdgeData uv.1 uv.2) <$> pares rota.
Proof.
  unfold distancia_de. fold (pares rota).
  apply (foldM_single_events _
           (λ t uv, match ged uv.1 uv.2 with
                    | Some (d :: ds) => fadd fl t (min_length d ds)
                    | _ => t
                    end)).
  intros t uv. apply soma_aresta_run.
Qed.

(** X9. The distance loop asks the graph for edge data exactly once per
    consecutive pair of the sequence, in order: one read less than there
    are nodes, none for a sequence of one node or none. *)
Theorem X9_one_edge_read_per_pair
        (ged : node → node → option (list edge_attr)) (fl : float_ops)
        (rota : list node) :
  trace (distancia_de ged fl rota)
  = (λ uv : node * node, GetEdgeData uv.1 uv.2) <$> pares rota ∧
  length (trace (distancia_de ged fl rota)) = length rota - 1.
Proof.
  pose proof (distancia_de_reads ged fl rota) as Ht.
  split; [done|]. by rewrite Ht, length_fmap, length_pares.
Qed.

Lemma somadas_nonneg ged rota :
  (∀ u v ds d, ged u v = Some ds → d ∈ ds → (0 <= attr_length d)%Q) →
  Forall (λ q, (0 <= q)%Q) (somadas ged rota).
Proof.
  intros Hnonneg. induction rota as [|u [|v l] IH]; [constructor..|].
  rewrite somadas_cons2. destruct (ged u v) as [[|d ds]|] eqn:Hged; try done.
  constructor; [|done].
  destruct (min_length_in d ds) as (x & Hx & ->). by eapply Hnonneg.
Qed.

Lemma fold_fadd_nonneg fl qs :
  (∀ x y, 0 <= x → 0 <= y → 0 <= fadd fl x y)%Q →
  Forall (λ q, (0 <= q)%Q) qs →
  ∀ acc, (0 <= acc)%Q → (0 <= fold_left (fadd fl) qs acc)%Q.
Proof.
  intros Hfadd. induction 1 as [|q qs Hq _ IH]; intros acc Hacc; [done|].
  cbn [fold_left]. apply IH. by apply Hfadd.
Qed.

(** X11. When no edge of the graph has a negative length, and the machine's
    sum of two non-negative floats is not negative, the total distance is
    not negative, whatever the sequence; it is the number the loop started
    from, 0, when the sequence has fewer than two nodes. *)
Theorem X11_distance_not_negative
        (ged : node → node → option (list edge_attr)) (fl : float_ops)
        (rota : list node) :
  (∀ x y, 0 <= x → 0 <= y → 0 <= fadd fl x y)%Q →
  (∀ u v ds d, ged u v = Some ds → d ∈ ds → (0 <= attr_length d)%Q) →
  (∃ t, result (distancia_de ged fl rota) = inr t ∧ (0 <= t)%Q) ∧
  (length rota < 2 → result (distancia_de ged fl rota) = inr 0%Q).
Proof.
  intros Hfadd Hnonneg. split.
  - eexists. split; [apply distancia_total|].
    apply fold_fadd_nonneg; [done | by apply somadas_nonneg | apply Qle_refl].
  - intros Hlen. by destruct rota as [|u [|v rota]]; simpl in Hlen; [| |lia].
Qed.

Lemma Demo_lengths_of_edges_nonneg u v ds d :
  Demo.get_edge_data u v = Some ds → d ∈ ds → (0 <= attr_length d)%Q.
Proof.
  unfold Demo.get_edge_data. intros H Hd.
  repeat case_match; simplify_eq;
    repeat (apply elem_of_cons in Hd as [->|Hd]; [unfold Qle; simpl; lia|]);
    by apply elem_of_nil in Hd.
Qed.

Lemma Demo_arredonda_nonneg q : (0 <= q)%Q → (0 <= Demo.arredonda q)%Q.
Proof.
  intros Hq. unfold Demo.arredonda.
  assert (0 <= Qfloor (q * 1024 + (1 # 2)))%Z as Hfloor.
  { change 0%Z with (Qfloor 0). apply Qfloor_resp_le. lra. }
  unfold Qle. cbn [Qnum Qden]. lia.
Qed.

Lemma Demo_fadd_nonneg x y :
  (0 <= x)%Q → (0 <= y)%Q → (0 <= fadd Demo.fl x y)%Q.
Proof. intros Hx Hy. apply Demo_arredonda_nonneg. lra. Qed.

Lemma X11_witness :
  (∃ t, result (distancia_de Demo.get_edge_data Demo.fl [1; 2; 3; 1]%Z) = inr t ∧
        (0 <= t)%Q) ∧
  (length [1; 2; 3; 1]%Z < 2 →
   result (distancia_de Demo.get_edge_data Demo.fl [1; 2; 3; 1]%Z) = inr 0%Q).
Proof.
  apply (X11_distance_not_negative Demo.get_edge_data Demo.fl [1; 2; 3; 1]%Z).
  - apply Demo_fadd_nonneg.
  - apply Demo_lengths_of_edges_nonneg.
Defined.

(** *** The report *)

Lemma paradas_run (enderecos : list string) rota es :
  Forall2 (λ i e, enderecos !! i = Some e) rota es →
  foldM (λ (_ : unit) i, e ← getitem enderecos i; emit (Print (LParada i e)))
        tt rota
  = ((λ ie : nat * string, Print (LParada ie.1 ie.2)) <$> zip rota es, inr tt).
Proof.
  induction 1 as [|i e rota es Hi _ IH]; [done|].
  rewrite foldM_cons. unmonad. rewrite (getitem_Some _ _ _ Hi), bind_ret.
  cbn [bind emit fst snd]. by rewrite IH.
Qed.

Lemma coordenadas_run (xs : list (nat * coord)) :
  foldM (λ (_ : unit) (ic : nat * coord),
           let '(i, (lat, lon)) := ic in
           emit (Print (LCoordenada (i + 1) lat lon)))
        tt xs
  = ((λ ic : nat * coord, Print (LCoordenada (ic.1 + 1) ic.2.1 ic.2.2)) <$> xs,
     inr tt).
Proof.
  induction xs as [|[i [lat lon]] xs IH]; [done|].
  rewrite foldM_cons. cbn [bind emit fst snd]. by rewrite IH.
Qed.

Lemma relatorio_run (enderecos : list string) rota es coords :
  rota ≠ [] →
  Forall2 (λ i e, enderecos !! i = Some e) rota es →
  relatorio enderecos (Some rota) coords
  = (Print LRotaOtimizada
       :: ((λ ie : nat * string, Print (LParada ie.1 ie.2)) <$> zip rota es)
       ++ Print LGeocodificacao
       :: ((λ ic : nat * coord, Print (LCoordenada (ic.1 + 1) ic.2.1 ic.2.2))
             <$> zip (seq 0 (length coords)) coords),
     inr tt).
Proof.
  intros Hne Hes. unfold relatorio. destruct rota as [|i0 rota]; [done|].
  rewrite (paradas_run _ _ _ Hes), coordenadas_run. reflexivity.
Qed.

(** X12. For a tour whose stops all have an address, the report prints its
    heading, one line per stop in visiting order with the stop's waypoint
    index and address, the second heading, and one line per coordinate
    numbered from 1; it raises nothing. *)
Theorem X12_report_lists_stops_in_order
        (enderecos : list string) (rota : list nat) (es : list string)
        (coords : list coord) :
  rota ≠ [] →
  Forall2 (λ i e, enderecos !! i = Some e) rota es →
  relatorio enderecos (Some rota) coords
  = (Print LRotaOtimizada
       :: ((λ ie : nat * string, Print (LParada ie.1 ie.2)) <$> zip rota es)
       ++ Print LGeocodificacao
       :: ((λ ic : nat * coord, Print (LCoordenada (ic.1 + 1) ic.2.1 ic.2.2))
             <$> zip (seq 0 (length coords)) coords),
     inr tt).
Proof.
  intros Hne Hes. destruct rota as [|i0 rota]; [done|].
  unfold relatorio. rewrite (paradas_run _ _ _ Hes), coordenadas_run.
  reflexivity.
Qed.

Lemma X12_witness :
  relatorio Demo.enderecos (Some [0; 2; 1; 0]) [(0, 0); (2, 2)]%Q
  = (Print LRotaOtimizada
       :: ((λ ie : nat * string, Print (LParada ie.1 ie.2))
             <$> zip [0; 2; 1; 0] ["A"; "C"; "B"; "A"]%string)
       ++ Print LGeocodificacao
       :: ((λ ic : nat * coord, Print (LCoordenada (ic.1 + 1) ic.2.1 ic.2.2))
             <$> zip (seq 0 2) [(0, 0); (2, 2)]%Q),
     inr tt).
Proof.
  apply (X12_report_lists_stops_in_order Demo.enderecos [0; 2; 1; 0]
           ["A"; "C"; "B"; "A"]%string [(0, 0); (2, 2)]%Q).
  - done.
  - repeat constructor.
Defined.

(** *** A run that reaches the end *)

Lemma lookups_total {A} (xs : list A) (idx : list nat) :
  Forall (λ i, i < length xs) idx →
  ∃ ys, result (forM (getitem xs) idx) = inr ys ∧
        Forall2 (λ i y, xs !! i = Some y) idx ys.
Proof.
  induction 1 as [|i idx Hi _ (ys & Hys & Hall)].
  - exists []. split; [done | constructor].
  - destruct (lookup_lt_is_Some_2 xs i Hi) as [x Hx].
    exists (x :: ys). split; [|by constructor].
    cbn [forM]. unmonad.
    rewrite (getitem_Some _ _ _ Hx), bind_ret, result_bind, Hys. done.
Qed.

Lemma matriz_de_succeeds spl nos :
  (∀ i j a b, i ≠ j → nos !! i = Some a → nos !! j = Some b →
              is_Some (spl a b)) →
  ∃ m, result (matriz_de spl nos) = inr m ∧ square (length nos) m.
Proof.
  intros Hall.
  destruct (matriz_de_run spl nos) as [(m & Hm & Hsq & _)|Hab];
    [by exists m|].
  exfalso. destruct Hab as (a & b & _ & Hnone & Hlast).
  pose proof (matriz_de_trace spl nos) as Htrace.
  apply last_Some in Hlast as [t Ht]. rewrite Ht in Htrace.
  apply Forall_app in Htrace as [_ Hq]. apply Forall_singleton in Hq
    as (i & j & a' & b' & Hne & Ha & Hb & [= -> ->]).
  destruct (Hall i j a' b' Hne Ha Hb) as [q Hq]. congruence.
Qed.

Lemma leg_total sp rn rf i a b x p :
  rn !! i = Some a → rn !! (i + 1) = Some b → sp a b = Some (x :: p) →
  ∃ rf', result (leg sp rn rf i) = inr rf'.
Proof.
  intros Ha Hb Hp. unfold leg. unmonad.
  rewrite (getitem_Some _ _ _ Ha), bind_ret, (getitem_Some _ _ _ Hb), bind_ret.
  unfold call_shortest_path, seam. unmonad. rewrite Hp.
  cbn [bind emit ret fst snd result app].
  destruct (last rf) as [u|]; [|by eexists].
  unfold getitem. cbn [lookup list_lookup bind ret fst snd].
  destruct (decide (x = u)); by eexists.
Qed.

Lemma rota_final_total sp rn :
  (∀ k a b, rn !! k = Some a → rn !! S k = Some b →
            ∃ x p, sp a b = Some (x :: p)) →
  ∃ rf, result (rota_final_de sp rn) = inr rf.
Proof.
  intros Hpaths. unfold rota_final_de.
  assert (∀ k, k ≤ length rn - 1 →
               ∃ rf, result (foldM (leg sp rn) [] (seq 0 k)) = inr rf) as Hk.
  { induction k as [|k IH]; intros Hle; [by exists []|].
    destruct (IH ltac:(lia)) as [rfk Hrfk].
    destruct (lookup_lt_is_Some_2 rn k ltac:(lia)) as [a Ha].
    destruct (lookup_lt_is_Some_2 rn (S k) ltac:(lia)) as [b Hb].
    destruct (Hpaths k a b Ha Hb) as (x & p & Hp).
    destruct (leg_total sp rn rfk k a b x p Ha ltac:(by rewrite Nat.add_1_r) Hp)
      as [rf' Hrf'].
    exists rf'. rewrite seq_S, foldM_app, result_bind, Hrfk.
    change (0 + k) with k. by rewrite foldM_cons, result_bind, Hrf'. }
  by apply Hk.
Qed.

(** X13. The script reaches the end, with a tour of [N + 1] stops, whenever
    there is at least one waypoint, every waypoint has an address, the graph
    library has a length and a non-empty path between the nodes of any two
    waypoints, the solver finds a solution that keeps its promise, and the
    tour loop is given at least [N] turns. *)
Theorem X13_run_reaches_the_end
        (nearest : Q → Q → node) (spl : node → node → option Q)
        (sp : node → node → option (list node))
        (ged : node → node → option (list edge_attr)) (fl : float_ops)
        (Solve : list (list Z) → option assignment)
        (fuel : nat) (enderecos : list string) (coordenadas : list coord) :
  let n := length coordenadas in
  let ns := (λ c : coord, nearest c.2 c.1) <$> coordenadas in
  0 < n →
  length enderecos = n →
  (∀ a b, a ∈ ns → b ∈ ns →
          is_Some (spl a b) ∧ ∃ x p, sp a b = Some (x :: p)) →
  (∀ m, square n m → ∃ s, Solve m = Some s ∧ routing_solution n s) →
  n ≤ fuel →
  ∃ r, result (main nearest spl sp ged fl Solve fuel enderecos coordenadas)
         = inr (Some r) ∧
       length (rota_otimizada r) = S n.
Proof.
  intros n ns Hpos Hend Hlib Hsolver Hfuel.
  assert (length ns = n) as Hns by (unfold ns; by rewrite length_fmap).
  destruct (matriz_de_succeeds spl ns) as (m & Hm & Hsq).
  { intros i j a b _ Ha Hb.
    apply (Hlib a b); by eapply list_elem_of_lookup_2. }
  rewrite Hns in Hsq. pose proof Hsq as [Hlen _].
  destruct (Hsolver m Hsq) as (s & Hs & Hsol). rewrite <- Hlen in Hsol.
  destruct (resolver_tsp_tour Solve m s fuel) as (meio & Hrota & Hperm);
    [lia | done | done | lia |].
  rewrite Hlen in Hperm. set (rota := 0 :: meio ++ [0]) in *.
  assert (Forall (λ i, i < n) rota) as Hin.
  { unfold rota. apply Forall_cons. split; [done|]. apply Forall_app. split.
    - rewrite Hperm. apply Forall_forall. intros i Hi%elem_of_seq. lia.
    - by apply Forall_singleton. }
  destruct (lookups_total coordenadas rota Hin) as (coords & Hcoords & _).
  destruct (lookups_total enderecos rota) as (es & _ & Hes);
    [by rewrite Hend|].
  destruct (lookups_total ns rota) as (rn & Hrn & Hrn2); [by rewrite Hns|].
  destruct (rota_final_total sp rn) as [rf Hrf].
  { intros k a b Ha Hb. apply (Hlib a b).
    - destruct (Forall2_lookup_r _ _ _ _ _ Hrn2 Ha) as (i & _ & Hi).
      by eapply list_elem_of_lookup_2.
    - destruct (Forall2_lookup_r _ _ _ _ _ Hrn2 Hb) as (i & _ & Hi).
      by eapply list_elem_of_lookup_2. }
  pose proof (distancia_total ged fl rf) as Htotal.
  eexists. split.
  - apply (main_forward nearest spl sp ged fl Solve fuel enderecos coordenadas
             m rota coords rn rf
             (fold_left (fadd fl) (somadas ged rf) 0%Q)); try done.
    + by rewrite Hrota.
    + by rewrite (relatorio_run enderecos rota es coords).
  - cbn [rota_otimizada]. unfold rota. simpl. rewrite length_app.
    apply Permutation_length in Hperm. rewrite length_seq in Hperm.
    simpl. lia.
Qed.

Lemma Demo_library_answers a b :
  a ∈ [1; 2; 3]%Z → b ∈ [1; 2; 3]%Z →
  is_Some (Demo.shortest_path_length a b) ∧
  ∃ x p, Demo.shortest_path a b = Some (x :: p).
Proof.
  intros Ha Hb.
  repeat (apply elem_of_cons in Ha as [->|Ha]);
    repeat (apply elem_of_cons in Hb as [->|Hb]);
    try (by apply elem_of_nil in Ha); try (by apply elem_of_nil in Hb);
    (split; [by eexists | by eexists _, _]).
Qed.

Lemma X13_witness :
  ∃ r, result (Demo.run 3) = inr (Some r) ∧ length (rota_otimizada r) = 4.
Proof.
  apply (X13_run_reaches_the_end
           Demo.nearest_nodes Demo.shortest_path_length Demo.shortest_path
           Demo.get_edge_data Demo.fl Demo.solver 3 Demo.enderecos Demo.coordenadas).
  - simpl. lia.
  - reflexivity.
  - apply Demo_library_answers.
  - intros m _. exists Demo.em_ordem. split; [reflexivity|].
    apply em_ordem_solution.
  - simpl. lia.
Defined.

(** *** The markers on the map *)

Lemma anotacoes_slice (node_xy : node → Q * Q) (rn : list node)
      (rota : list nat) mid1 :
  ∀ mid2 pre1 pre2 post1 post2,
    rn = pre1 ++ mid1 ++ post1 → rota = pre2 ++ mid2 ++ post2 →
    length pre1 = length pre2 → length mid1 = length mid2 →
    forM (λ i, node_id ← getitem rn i;
               endereco_index ← getitem rota i;
               ret (endereco_index, node_xy node_id))
         (seq (length pre1) (length mid1))
    = ret (zip mid2 (node_xy <$> mid1)).
Proof.
  induction mid1 as [|a mid1 IH]; intros mid2 pre1 pre2 post1 post2 Hrn Hrota
    Hpre Hmid.
  - by destruct mid2.
  - destruct mid2 as [|b mid2]; [done|]. simpl in Hmid.
    cbn [length seq forM]. unmonad.
    assert (rn !! length pre1 = Some a) as Ha
      by (rewrite Hrn; by apply list_lookup_middle).
    assert (rota !! length pre1 = Some b) as Hb
      by (rewrite Hrota, Hpre; by apply list_lookup_middle).
    rewrite (getitem_Some _ _ _ Ha), bind_ret.
    rewrite (getitem_Some _ _ _ Hb), !bind_ret.
    specialize (IH mid2 (pre1 ++ [a]) (pre2 ++ [b]) post1 post2).
    rewrite length_app in IH. simpl in IH. rewrite Nat.add_1_r in IH.
    unmonad. rewrite IH; [by rewrite bind_ret | | | | lia].
    + by rewrite Hrn, <- app_assoc.
    + by rewrite Hrota, <- app_assoc.
    + rewrite length_app. simpl. lia.
Qed.

(** X14. On the map the first stop's node gets the start marker, and every
    stop strictly between the first and the last gets a marker at its node
    labelled with its original waypoint index, in visiting order; the first
    and the last stop get no label. *)
Theorem X14_markers_label_the_inner_stops
        (node_xy : node → Q * Q) (ns : list node)
        (rota : list nat) (rn : list node) (i0 iN : nat) (meio : list nat) :
  rota = i0 :: meio ++ [iN] →
  Forall2 (λ i y, ns !! i = Some y) rota rn →
  ∃ n0 nmeio nN,
    rn = n0 :: nmeio ++ [nN] ∧
    ns !! i0 = Some n0 ∧
    Forall2 (λ i y, ns !! i = Some y) meio nmeio ∧
    marcadores node_xy rota rn
    = ret (node_xy n0, zip meio (node_xy <$> nmeio)).
Proof.
  intros -> Hrn.
  apply Forall2_ends in Hrn as (n0 & nmeio & nN & -> & H0 & Hmeio & HN).
  exists n0, nmeio, nN. do 3 (split; [done|]).
  unfold marcadores. cbv zeta. unmonad.
  rewrite fmap_cons.
  rewrite (getitem_Some (node_xy n0 :: (node_xy <$> nmeio ++ [nN])) 0
             (node_xy n0) eq_refl), bind_ret.
  assert (length (n0 :: nmeio ++ [nN]) - 1 - 1 = length nmeio) as ->
    by (simpl; rewrite length_app; simpl; lia).
  pose proof (anotacoes_slice node_xy (n0 :: nmeio ++ [nN])
                (i0 :: meio ++ [iN]) nmeio meio [n0] [i0] [nN] [iN]
                eq_refl eq_refl eq_refl
                (eq_sym (Forall2_length _ _ _ Hmeio))) as Hslice.
  simpl length in Hslice at 1. unmonad. rewrite Hslice. by rewrite bind_ret.
Qed.

Lemma X14_witness :
  ∃ n0 nmeio nN,
    [1; 3; 2; 1]%Z = n0 :: nmeio ++ [nN] ∧
    [1; 2; 3]%Z !! 0 = Some n0 ∧
    Forall2 (λ i y, [1; 2; 3]%Z !! i = Some y) [2; 1] nmeio ∧
    marcadores (λ n, (inject_Z n, inject_Z n)) [0; 2; 1; 0] [1; 3; 2; 1]%Z
    = ret ((λ n, (inject_Z n, inject_Z n)) n0,
           zip [2; 1] ((λ n, (inject_Z n, inject_Z n)) <$> nmeio)).
Proof.
  apply (X14_markers_label_the_inner_stops (λ n, (inject_Z n, inject_Z n))
           [1; 2; 3]%Z [0; 2; 1; 0] [1; 3; 2; 1]%Z 0 0 [2; 1]).
  - reflexivity.
  - repeat constructor.
Defined.

(** *** The truncation *)

(** X16. [int] cuts a float toward zero: it gives back an integer-valued
    float's integer, commutes with negation, moves the value by less than
    one and never away from zero. *)
Theorem X16_int_truncates_toward_zero (q : Q) (z : Z) :
  int (inject_Z z) = z ∧
  int (- q) = (- int q)%Z ∧
  (Qabs (q - inject_Z (int q)) < 1)%Q ∧
  (Qabs (inject_Z (int q)) <= Qabs q)%Q.
Proof.
  split; [|split; [|split]].
  - unfold int. simpl. apply Z.quot_1_r.
  - apply int_opp.
  - apply int_near.
  - destruct (Qlt_le_dec q 0) as [Hneg|Hpos].
    + assert (0 <= - q)%Q as Hq by lra.
      destruct (int_bounds (- q) Hq) as (H0 & Hlo & _).
      rewrite int_opp in H0, Hlo. rewrite inject_Z_opp in Hlo.
      assert (inject_Z (int q) <= 0)%Q as Hle.
      { change 0%Q with (inject_Z 0). rewrite <- Zle_Qle. lia. }
      rewrite (Qabs_neg q) by lra. rewrite (Qabs_neg _ Hle). lra.
    + destruct (int_bounds q Hpos) as (H0 & Hlo & _).
      assert (0 <= inject_Z (int q))%Q as Hle.
      { change 0%Q with (inject_Z 0). by rewrite <- Zle_Qle. }
      rewrite (Qabs_pos q Hpos), (Qabs_pos _ Hle). done.
Qed.

(** *** Edges of the seam and of the solver's answer *)

(** X17. Joining a path to the route raises only on an empty path after a
    route that already has a node, where [path[0]] is read: an [IndexError].
    An empty route takes any path as it is, the empty one too. *)
Theorem X17_seam_raises_only_on_empty_path
        (rota_final path : list node) (e : exn) :
  (result (seam rota_final path) = inl e ↔
   rota_final ≠ [] ∧ path = [] ∧ e = IndexError) ∧
  seam [] path = ret path.
Proof.
  split; [|done]. unfold seam. unmonad.
  destruct (last rota_final) as [u|] eqn:Hlast.
  - assert (rota_final ≠ []) as Hne by (by intros ->).
    destruct path as [|x path]; simpl.
    + split; [by intros [= <-] | by intros (_ & _ & ->)].
    + destruct (decide (x = u)); simpl; split; try done; by intros (_ & ? & _).
  - apply last_None in Hlast as ->. simpl. split; [done | by intros (? & _)].
Qed.

(** X18. Whenever the matrix is built and the solver finds no solution, the
    script ends with the [TypeError] of line 68 before any line is printed
    and before any path or edge is read. *)
Theorem X18_no_solution_always_ends_in_TypeError
        (nearest : Q → Q → node) (spl : node → node → option Q)
        (sp : node → node → option (list node))
        (ged : node → node → option (list edge_attr)) (fl : float_ops)
        (Solve : list (list Z) → option assignment)
        (fuel : nat) (enderecos : list string) (coordenadas : list coord)
        (m : list (list Z)) :
  result (matriz_de spl ((λ c : coord, nearest c.2 c.1) <$> coordenadas))
    = inr m →
  Solve m = None →
  result (main nearest spl sp ged fl Solve fuel enderecos coordenadas)
    = inl TypeError ∧
  Forall (λ e, later_stage e = false)
         (trace (main nearest spl sp ged fl Solve fuel enderecos coordenadas)).
Proof.
  intros Hm Hsolve. unfold main. unmonad. rewrite nos_de_run.
  assert (resolver_tsp Solve fuel m = ret None) as Hnone
    by (unfold resolver_tsp; by rewrite Hsolve).
  split.
  - rewrite result_bind. cbn [result snd].
    by rewrite result_bind, Hm, Hnone, bind_ret.
  - rewrite trace_bind. cbn [result trace fst snd].
    rewrite trace_bind, Hm, Hnone, bind_ret. cbn [rota_coordenadas_de].
    rewrite app_nil_r. apply Forall_app. split.
    + apply Forall_fmap. by apply Forall_true.
    + eapply Forall_impl; [apply matriz_de_trace|].
      by intros e (i & j & a & b & _ & _ & _ & ->).
Qed.

Lemma X18_witness :
  result (main Demo.nearest_nodes Demo.shortest_path_length Demo.shortest_path
               Demo.get_edge_data Demo.fl Demo.sem_solucao 0
               Demo.enderecos Demo.coordenadas)
    = inl TypeError ∧
  Forall (λ e, later_stage e = false)
         (trace (main Demo.nearest_nodes Demo.shortest_path_length
                      Demo.shortest_path Demo.get_edge_data Demo.fl Demo.sem_solucao 0
                      Demo.enderecos Demo.coordenadas)).
Proof.
  apply (X18_no_solution_always_ends_in_TypeError
           Demo.nearest_nodes Demo.shortest_path_length Demo.shortest_path
           Demo.get_edge_data Demo.fl Demo.sem_solucao 0 Demo.enderecos
           Demo.coordenadas (matriz Demo.fim)).
  - reflexivity.
  - reflexivity.
Defined.

(** ** What the assembler and a completed run do, exactly *)

Lemma junta_leg sp rn rf i rf' :
  result (leg sp rn rf i) = inr rf' →
  ∃ a b p, rn !! i = Some a ∧ rn !! (i + 1) = Some b ∧ sp a b = Some p ∧
           rf' = junta rf p.
Proof.
  intros Hleg. apply leg_inr in Hleg as (a & b & p & Ha & Hb & Hp & Hcase).
  exists a, b, p. do 3 (split; [done|]). unfold junta.
  destruct Hcase as [[-> ->]|[(u & Hu & Hh & ->)|(u & v & Hu & Hh & Hne & ->)]].
  - done.
  - rewrite Hu, Hh. by rewrite decide_True.
  - rewrite Hu, Hh. rewrite decide_False; [done|]. congruence.
Qed.

(** After [k] legs the route is the first [k] paths joined in order. *)
Lemma legs_junta sp rn k :
  ∀ rf, result (foldM (leg sp rn) [] (seq 0 k)) = inr rf →
        ∃ ps, Forall2 (λ ab p, sp ab.1 ab.2 = Some p) (take k (pares rn)) ps ∧
              rf = foldl junta [] ps.
Proof.
  induction k as [|k IH]; intros rf Hrun.
  - simpl in Hrun. injection Hrun as <-. exists []. by split; [constructor|].
  - rewrite seq_S, foldM_app in Hrun. change (0 + k) with k in Hrun.
    apply bind_inr in Hrun as (rfk & Hk & Hrun).
    rewrite foldM_cons in Hrun. apply bind_inr in Hrun as (rf' & Hleg & Hrun).
    simpl in Hrun. injection Hrun as <-.
    destruct (IH rfk Hk) as (ps & Hps & ->).
    apply junta_leg in Hleg as (a & b & p & Ha & Hb & Hp & ->).
    rewrite Nat.add_1_r in Hb.
    rewrite (take_S_r _ _ _ (pares_lookup rn k a b Ha Hb)).
    exists (ps ++ [p]). split.
    + apply Forall2_app; [done|]. by repeat constructor.
    + by rewrite foldl_snoc.
Qed.

Lemma rota_final_junta sp rn rf :
  result (rota_final_de sp rn) = inr rf →
  ∃ ps, Forall2 (λ ab p, sp ab.1 ab.2 = Some p) (pares rn) ps ∧
        rf = foldl junta [] ps.
Proof.
  intros Hrun. unfold rota_final_de in Hrun.
  destruct (legs_junta sp rn _ rf Hrun) as (ps & Hps & ->).
  exists ps. split; [|done].
  by rewrite take_ge in Hps by (rewrite length_pares; lia).
Qed.

Lemma seam_trace rf p : trace (seam rf p) = [].
Proof.
  unfold seam. destruct (last rf); [|done]. unmonad. unfold getitem.
  destruct (p !! 0); [|done]. rewrite bind_ret. by destruct (decide _).
Qed.

Lemma leg_query sp rn rf i rf' :
  result (leg sp rn rf i) = inr rf' →
  ∃ a b, rn !! i = Some a ∧ rn !! (i + 1) = Some b ∧
         trace (leg sp rn rf i) = [ShortestPath a b].
Proof.
  intros Hleg. pose proof Hleg as Hinv.
  apply leg_inr in Hinv as (a & b & p & Ha & Hb & Hp & _).
  exists a, b. do 2 (split; [done|]). unfold leg. unmonad.
  rewrite (getitem_Some _ _ _ Ha), bind_ret, (getitem_Some _ _ _ Hb), bind_ret.
  unfold call_shortest_path. unmonad. rewrite Hp.
  change (bind (emit (ShortestPath a b)) (λ _ : (), ret p))
    with (([ShortestPath a b], inr p) : M (list node)).
  rewrite trace_bind. cbn [trace result fst snd].
  rewrite trace_bind, seam_trace. by destruct (result (seam rf p)).
Qed.

(** A route that is assembled asked for one path per leg, in order. *)
Lemma legs_queries sp rn k :
  ∀ rf, result (foldM (leg sp rn) [] (seq 0 k)) = inr rf →
        trace (foldM (leg sp rn) [] (seq 0 k))
        = (λ ab : node * node, ShortestPath ab.1 ab.2) <$> take k (pares rn).
Proof.
  induction k as [|k IH]; intros rf Hrun; [done|].
  rewrite seq_S, foldM_app in Hrun |- *. change (0 + k) with k in *.
  apply bind_inr in Hrun as (rfk & Hk & Hrun).
  rewrite trace_bind, Hk, (IH rfk Hk).
  rewrite foldM_cons in Hrun |- *. apply bind_inr in Hrun as (rf' & Hleg & _).
  rewrite trace_bind, Hleg. cbn [foldM trace ret fst]. rewrite app_nil_r.
  apply leg_query in Hleg as (a & b & Ha & Hb & ->).
  rewrite Nat.add_1_r in Hb.
  by rewrite (take_S_r _ _ _ (pares_lookup rn k a b Ha Hb)), fmap_app.
Qed.

Lemma rota_final_de_queries sp rn rf :
  result (rota_final_de sp rn) = inr rf →
  trace (rota_final_de sp rn)
  = (λ ab : node * node, ShortestPath ab.1 ab.2) <$> pares rn.
Proof.
  intros Hrun. unfold rota_final_de in *.
  rewrite (legs_queries sp rn _ rf Hrun).
  by rewrite take_ge by (rewrite length_pares; lia).
Qed.

(** The events of a run that reaches the end, stage by stage. *)
Lemma main_trace_inr nearest spl sp ged fl Solve fuel enderecos coordenadas r :
  result (main nearest spl sp ged fl Solve fuel enderecos coordenadas)
    = inr (Some r) →
  ∃ prints,
    Forall (λ e, ∃ l, e = Print l) prints ∧
    trace (main nearest spl sp ged fl Solve fuel enderecos coordenadas)
    = ((λ c : coord, NearestNodes c.2 c.1) <$> coordenadas)
        ++ trace (matriz_de spl (nos r))
        ++ prints
        ++ trace (rota_final_de sp (rota_nos r))
        ++ trace (distancia_de ged fl (rota_final r))
        ++ [Print (LDistancia (distancia_total_km r))].
Proof.
  unfold main. unmonad. rewrite nos_de_run. intros H.
  apply bind_inr in H as (ns & Hns & H). simpl in Hns. injection Hns as <-.
  rewrite trace_bind. cbn [trace result fst snd].
  apply bind_inr in H as (m & Hm & H). rewrite trace_bind, Hm.
  apply bind_inr in H as (rota & Hrota & H).
  rewrite trace_bind, Hrota, resolver_tsp_trace.
  apply bind_inr in H as (coords & Hcoords & H).
  rewrite trace_bind, Hcoords.
  apply bind_inr in H as ([] & Hrel & H). rewrite trace_bind, Hrel.
  destruct rota as [[|i0 rota]|]; [done | | done].
  cbn [rota_coordenadas_de]. rewrite (proj1 (forM_getitem coordenadas _)).
  apply bind_inr in H as (rn & Hrn & H).
  rewrite trace_bind, Hrn, (proj1 (forM_getitem _ _)).
  apply bind_inr in H as (rf & Hrf & H). rewrite trace_bind, Hrf.
  apply bind_inr in H as (total & Htotal & H). rewrite trace_bind, Htotal.
  simpl in H. injection H as <-.
  exists (trace (relatorio enderecos (Some (i0 :: rota)) coords)).
  split; [apply relatorio_trace|]. reflexivity.
Qed.

(** ** The claims *)

(** C1. When the solver finds a solution for a matrix of [N >= 1] rows, and
    the loop is given at least [N] turns, [resolver_tsp] returns a list of
    length [N + 1] that starts and ends with index 0 and has every other
    index of [0 .. N-1] exactly once in between. *)
Theorem C1_resolver_tsp_permutation_cycle
        (Solve : list (list Z) → option assignment)
        (matriz : list (list Z)) (solution : assignment) (fuel : nat) :
  0 < length matriz →
  Solve matriz = Some solution →
  routing_solution (length matriz) solution →
  length matriz ≤ fuel →
  ∃ meio, resolver_tsp Solve fuel matriz = ret (Some (0 :: meio ++ [0])) ∧
          meio ≡ₚ seq 1 (length matriz - 1) ∧
          length (0 :: meio ++ [0]) = S (length matriz).
Proof.
  intros Hpos Hsolve Hsol Hfuel.
  destruct (resolver_tsp_tour Solve matriz solution fuel Hpos Hsolve Hsol Hfuel)
    as (meio & Hrun & Hperm).
  exists meio. split; [done|]. split; [done|].
  apply Permutation_length in Hperm. rewrite length_seq in Hperm.
  simpl. rewrite length_app, Hperm. simpl. lia.
Qed.

Lemma C1_witness :
  ∃ meio,
    resolver_tsp Demo.solver 3 [[0; 5; 7]; [6; 0; 2]; [4; 2; 0]]%Z
      = ret (Some (0 :: meio ++ [0])) ∧
    meio ≡ₚ seq 1 2 ∧ length (0 :: meio ++ [0]) = 4.
Proof.
  apply (C1_resolver_tsp_permutation_cycle Demo.solver
           [[0; 5; 7]; [6; 0; 2]; [4; 2; 0]]%Z Demo.em_ordem 3).
  - simpl. lia.
  - reflexivity.
  - apply em_ordem_solution.
  - simpl. lia.
Defined.

(** C2. The assembled sequence is the legs' paths, one per consecutive pair
    of tour stops, joined in order, a path losing its first node when that
    node is the one the sequence already ends with.  When the paths the
    graph library returns have no node twice in a row, the sequence has no
    two equal neighbours.  When moreover each path runs from its leg's first
    node to its second, every seam is such a shared junction and the
    junction is kept once: the sequence is the first path followed by the
    other paths without their first nodes, as long as the paths together
    less one node per junction. *)
Theorem C2_seam_keeps_junctions_single
        (sp : node → node → option (list node))
        (rota_nos rota_final : list node) :
  (∀ a b p, sp a b = Some p → no_stutter p) →
  result (rota_final_de sp rota_nos) = inr rota_final →
  ∃ ps,
    Forall2 (λ ab p, sp ab.1 ab.2 = Some p) (pares rota_nos) ps ∧
    rota_final = foldl junta [] ps ∧
    no_stutter rota_final ∧
    (∀ rf i a b u rest,
       rota_nos !! i = Some a → rota_nos !! (i + 1) = Some b →
       sp a b = Some (u :: rest) → last rf = Some u →
       result (leg sp rota_nos rf i) = inr (rf ++ rest)) ∧
    ((∀ a b p, sp a b = Some p → head p = Some a ∧ last p = Some b) →
     rota_final = stitch ps ∧
     length rota_final + (length ps - 1) = sum_list (length <$> ps)).
Proof.
  intros Hsp Hrun.
  destruct (rota_final_junta sp rota_nos rota_final Hrun) as (ps & Hps & Hjoin).
  exists ps. split; [done|]. split; [done|]. split; [|split].
  - unfold rota_final_de in Hrun.
    apply (foldM_invariant (leg sp rota_nos) no_stutter
             (seq 0 (length rota_nos - 1))) with (acc := []); [|done|done].
    intros acc i acc' _ Hacc Hleg. by apply (leg_keeps_no_stutter sp rota_nos acc i).
  - intros rf i a b u rest Ha Hb Hp Hlast.
    unfold leg. unmonad.
    rewrite (getitem_Some _ _ _ Ha), bind_ret, (getitem_Some _ _ _ Hb), bind_ret.
    unfold call_shortest_path, seam. unmonad. rewrite Hp, Hlast. simpl.
    destruct (decide (u = u)); [done | congruence].
  - intros Hends.
    destruct (rota_final_stitch sp Hends rota_nos rota_final Hrun)
      as (ps' & Hps' & Hstitch).
    assert (ps' = ps) as ->.
    { apply (Forall2_unique _ _ _ _ Hps' Hps). intros ab p1 p2. congruence. }
    split; [done|]. rewrite Hstitch. apply length_stitch.
    apply (Forall2_Forall_r _ _ _ _ Hps), Forall_forall.
    intros [a b] _ p Hp ->. apply Hends in Hp as [Hhead _]. done.
Qed.

Lemma C2_witness :
  ∃ ps,
    Forall2 (λ ab p, Demo.shortest_path ab.1 ab.2 = Some p)
            (pares [1; 2; 3; 1]%Z) ps ∧
    [1; 2; 3; 1]%Z = foldl junta [] ps ∧
    no_stutter [1; 2; 3; 1]%Z ∧
    (∀ rf i a b u rest,
       [1; 2; 3; 1]%Z !! i = Some a → [1; 2; 3; 1]%Z !! (i + 1) = Some b →
       Demo.shortest_path a b = Some (u :: rest) → last rf = Some u →
       result (leg Demo.shortest_path [1; 2; 3; 1]%Z rf i) = inr (rf ++ rest)) ∧
    ((∀ a b p, Demo.shortest_path a b = Some p →
               head p = Some a ∧ last p = Some b) →
     [1; 2; 3; 1]%Z = stitch ps ∧
     length [1; 2; 3; 1]%Z + (length ps - 1) = sum_list (length <$> ps)).
Proof.
  apply (C2_seam_keeps_junctions_single Demo.shortest_path
           [1; 2; 3; 1]%Z [1; 2; 3; 1]%Z).
  - apply Demo_paths_no_stutter.
  - reflexivity.
Defined.

(** C6. For a consecutive pair of the sequence joined by parallel edges, the
    amount the distance loop adds is the smallest of their lengths, and the
    total is the machine's left-to-right sum of the amounts added pair by
    pair (their sum, when the additions are exact). *)
Theorem C6_minimum_of_parallel_edges
        (ged : node → node → option (list edge_attr)) (fl : float_ops)
        (rota : list node) (i : nat) (u v : node)
        (d : edge_attr) (ds : list edge_attr) :
  rota !! i = Some u → rota !! S i = Some v → ged u v = Some (d :: ds) →
  parcelas ged rota !! i = Some (min_length d ds) ∧
  (∃ x, x ∈ d :: ds ∧ min_length d ds = attr_length x) ∧
  (∀ x, x ∈ d :: ds → (min_length d ds <= attr_length x)%Q) ∧
  (∀ total,
     result (soma_aresta ged fl total (u, v))
     = inr (fadd fl total (min_length d ds))) ∧
  result (distancia_de ged fl rota)
  = inr (fold_left (fadd fl) (somadas ged rota) 0%Q) ∧
  ((∀ x y, fadd fl x y == x + y)%Q →
   (fold_left (fadd fl) (somadas ged rota) 0 == Qsum (parcelas ged rota))%Q).
Proof.
  intros Hu Hv Hged. split; [|split; [|split; [|split; [|split]]]].
  - unfold parcelas. rewrite list_lookup_fmap, (pares_lookup rota i u v Hu Hv).
    simpl. unfold parcela. simpl. by rewrite Hged.
  - apply min_length_in.
  - intros x. apply min_length_le.
  - intros total. rewrite soma_aresta_run. cbn [fst snd result]. by rewrite Hged.
  - apply distancia_total.
  - apply distancia_exact.
Qed.

Lemma C6_witness :
  let d := EdgeAttr 7 in
  let ds := [EdgeAttr 5.5] in
  let rota := [1; 2; 3; 1]%Z in
  parcelas Demo.get_edge_data rota !! 0 = Some (min_length d ds) ∧
  (∃ x, x ∈ d :: ds ∧ min_length d ds = attr_length x) ∧
  (∀ x, x ∈ d :: ds → (min_length d ds <= attr_length x)%Q) ∧
  (∀ total, result (soma_aresta Demo.get_edge_data Demo.fl total (1, 2)%Z)
            = inr (fadd Demo.fl total (min_length d ds))) ∧
  result (distancia_de Demo.get_edge_data Demo.fl rota)
  = inr (fold_left (fadd Demo.fl) (somadas Demo.get_edge_data rota) 0%Q) ∧
  ((∀ x y, fadd Demo.fl x y == x + y)%Q →
   (fold_left (fadd Demo.fl) (somadas Demo.get_edge_data rota) 0
    == Qsum (parcelas Demo.get_edge_data rota))%Q).
Proof.
  apply (C6_minimum_of_parallel_edges Demo.get_edge_data Demo.fl
           [1; 2; 3; 1]%Z 0 1%Z 2%Z (EdgeAttr 7) [EdgeAttr 5.5]); reflexivity.
Defined.

(** C10. For a consecutive pair for which the graph has no edge data, the
    distance loop leaves the total as it is and goes on: the pair is not
    among the amounts added.  The loop raises nothing and returns the
    machine's sum of the amounts it added (their sum, when the additions
    are exact). *)
Theorem C10_missing_edge_is_skipped
        (ged : node → node → option (list edge_attr)) (fl : float_ops)
        (rota : list node) (i : nat) (u v : node) :
  rota !! i = Some u → rota !! S i = Some v → ged u v = None →
  parcelas ged rota !! i = Some 0%Q ∧
  (∀ total, soma_aresta ged fl total (u, v) = ([GetEdgeData u v], inr total)) ∧
  result (distancia_de ged fl rota)
  = inr (fold_left (fadd fl) (somadas ged rota) 0%Q) ∧
  ((∀ x y, fadd fl x y == x + y)%Q →
   (fold_left (fadd fl) (somadas ged rota) 0 == Qsum (parcelas ged rota))%Q).
Proof.
  intros Hu Hv Hged. split; [|split; [|split]].
  - unfold parcelas. rewrite list_lookup_fmap, (pares_lookup rota i u v Hu Hv).
    simpl. unfold parcela. simpl. by rewrite Hged.
  - intros total. rewrite soma_aresta_run. cbn [fst snd]. by rewrite Hged.
  - apply distancia_total.
  - apply distancia_exact.
Qed.

Lemma C10_witness :
  let rota := [1; 3; 3; 2]%Z in
  parcelas Demo.get_edge_data rota !! 1 = Some 0%Q ∧
  (∀ total, soma_aresta Demo.get_edge_data Demo.fl total (3, 3)%Z
            = ([GetEdgeData 3%Z 3%Z], inr total)) ∧
  result (distancia_de Demo.get_edge_data Demo.fl rota)
  = inr (fold_left (fadd Demo.fl) (somadas Demo.get_edge_data rota) 0%Q) ∧
  ((∀ x y, fadd Demo.fl x y == x + y)%Q →
   (fold_left (fadd Demo.fl) (somadas Demo.get_edge_data rota) 0
    == Qsum (parcelas Demo.get_edge_data rota))%Q).
Proof.
  apply (C10_missing_edge_is_skipped Demo.get_edge_data Demo.fl
           [1; 3; 3; 2]%Z 1 3%Z 3%Z); reflexivity.
Defined.

(** C9. In a run that reaches the end, with shortest-path lengths that are
    not negative, every off-diagonal entry of the matrix is the truncation
    of the length between the two waypoints' nodes: a non-negative integer
    with [entry <= length < entry + 1].  The tour is the one the solver
    gives for this truncated matrix, while the total distance is the
    machine's sum of the untruncated amounts added along the assembled
    sequence (their sum, when the additions are exact). *)
Theorem C9_matrix_entries_are_truncated
        (nearest : Q → Q → node) (spl : node → node → option Q)
        (sp : node → node → option (list node))
        (ged : node → node → option (list edge_attr)) (fl : float_ops)
        (Solve : list (list Z) → option assignment)
        (fuel : nat) (enderecos : list string) (coordenadas : list coord)
        (r : resultado) (i j : nat) :
  (∀ a b q, spl a b = Some q → (0 <= q)%Q) →
  result (main nearest spl sp ged fl Solve fuel enderecos coordenadas)
    = inr (Some r) →
  i < length coordenadas → j < length coordenadas → i ≠ j →
  (∃ a b q, nos r !! i = Some a ∧ nos r !! j = Some b ∧ spl a b = Some q ∧
            getcell (matriz r) i j = Some (int q) ∧
            (0 <= int q)%Z ∧
            (inject_Z (int q) <= q)%Q ∧ (q < inject_Z (int q) + 1)%Q) ∧
  result (resolver_tsp Solve fuel (matriz r)) = inr (Some (rota_otimizada r)) ∧
  distancia_total_metros r
  = fold_left (fadd fl) (somadas ged (rota_final r)) 0%Q ∧
  ((∀ x y, fadd fl x y == x + y)%Q →
   (distancia_total_metros r == Qsum (parcelas ged (rota_final r)))%Q).
Proof.
  intros Hnonneg Hrun Hi Hj Hne.
  apply main_inr in Hrun
    as (Hnos & Hm & Hrota & _ & _ & _ & Htotal & _).
  assert (length (nos r) = length coordenadas) as Hlen
    by (by rewrite Hnos, length_fmap).
  assert (distancia_total_metros r
          = fold_left (fadd fl) (somadas ged (rota_final r)) 0%Q) as Hsum.
  { rewrite distancia_total in Htotal. by injection Htotal as <-. }
  split; [|split; [done|split; [done|]]].
  - destruct (matriz_de_run spl (nos r)) as [(m & Hm' & _ & Hcells)|Hab].
    + rewrite Hm in Hm'. injection Hm' as <-.
      specialize (Hcells i j ltac:(lia) ltac:(lia)).
      rewrite decide_False in Hcells by done.
      destruct Hcells as (a & b & q & Ha & Hb & Hq & Hcell).
      exists a, b, q. do 4 (split; [done|]).
      apply int_bounds. by apply (Hnonneg a b).
    + destruct Hab as (a & b & Hr & _). congruence.
  - intros Hexact. rewrite Hsum. by apply distancia_exact.
Qed.

Lemma C9_witness :
  (∃ a b q, nos Demo.fim !! 0 = Some a ∧ nos Demo.fim !! 1 = Some b ∧
            Demo.shortest_path_length a b = Some q ∧
            getcell (matriz Demo.fim) 0 1 = Some (int q) ∧
            (0 <= int q)%Z ∧
            (inject_Z (int q) <= q)%Q ∧ (q < inject_Z (int q) + 1)%Q) ∧
  result (resolver_tsp Demo.solver 3 (matriz Demo.fim))
    = inr (Some (rota_otimizada Demo.fim)) ∧
  distancia_total_metros Demo.fim
  = fold_left (fadd Demo.fl)
      (somadas Demo.get_edge_data (rota_final Demo.fim)) 0%Q ∧
  ((∀ x y, fadd Demo.fl x y == x + y)%Q →
   (distancia_total_metros Demo.fim
    == Qsum (parcelas Demo.get_edge_data (rota_final Demo.fim)))%Q).
Proof.
  apply (C9_matrix_entries_are_truncated
           Demo.nearest_nodes Demo.shortest_path_length Demo.shortest_path
           Demo.get_edge_data Demo.fl Demo.solver 3 Demo.enderecos
           Demo.coordenadas Demo.fim 0 1).
  - apply Demo_lengths_nonneg.
  - apply Demo_run_fim.
  - simpl. lia.
  - simpl. lia.
  - lia.
Defined.




(** C5. On the demonstration network with a solver that finds no solution,
    [resolver_tsp] returns [None] and the script ends with the [TypeError]
    of iterating [None] at the list comprehension over the tour: the
    message [LNaoFoiPossivel] is never printed, and neither is anything
    else. *)
Theorem C5_no_solution_ends_in_TypeError :
  let run := main Demo.nearest_nodes Demo.shortest_path_length
                  Demo.shortest_path Demo.get_edge_data Demo.fl Demo.sem_solucao 3
                  Demo.enderecos Demo.coordenadas in
  result (resolver_tsp Demo.sem_solucao 3 (matriz Demo.fim)) = inr None ∧
  result run = inl TypeError ∧
  (Print LNaoFoiPossivel ∉ trace run) ∧
  Forall (λ e, later_stage e = false) (trace run).
Proof.
  cbv zeta. split; [reflexivity|]. split; [reflexivity|]. split.
  - vm_compute. intros H. repeat (apply elem_of_cons in H as [H|H]; [done|]).
    by apply elem_of_nil in H.
  - vm_compute. repeat constructor.
Qed.

(** C7. With one waypoint the matrix is [[0]], the tour is [0, 0] and the
    total distance is 0, given that the solver finds the solution of the
    one-node model and that the graph library answers a path query from a
    node to itself with that node alone. *)
Theorem C7_single_waypoint
        (nearest : Q → Q → node) (spl : node → node → option Q)
        (sp : node → node → option (list node))
        (ged : node → node → option (list edge_attr)) (fl : float_ops)
        (Solve : list (list Z) → option assignment) (solution : assignment)
        (fuel : nat) (endereco : string) (lat lon : Q) :
  Solve [[0%Z]] = Some solution →
  routing_solution 1 solution →
  sp (nearest lon lat) (nearest lon lat) = Some [nearest lon lat] →
  1 ≤ fuel →
  resolver_tsp Solve fuel [[0%Z]] = ret (Some [0; 0]) ∧
  ∃ r, result (main nearest spl sp ged fl Solve fuel [endereco] [(lat, lon)])
         = inr (Some r) ∧
       matriz r = [[0%Z]] ∧ rota_otimizada r = [0; 0] ∧
       distancia_total_metros r = 0%Q.
Proof.
  intros Hsolve Hsol Hsp Hfuel.
  assert (resolver_tsp Solve fuel [[0%Z]] = ret (Some [0; 0])) as Htour.
  { destruct (resolver_tsp_tour Solve [[0%Z]] solution fuel) as (meio & -> & Hp);
      [simpl; lia | done | done | simpl; lia |].
    simpl in Hp. by apply Permutation_nil_r in Hp as ->. }
  split; [done|]. eexists. split.
  - apply (main_forward nearest spl sp ged fl Solve fuel [endereco] [(lat, lon)]
             [[0%Z]] [0; 0] [(lat, lon); (lat, lon)]
             [nearest lon lat; nearest lon lat] [nearest lon lat] 0%Q);
      try reflexivity; [by rewrite Htour | done |].
    unfold rota_final_de. cbn [length Nat.sub seq foldM]. unmonad.
    rewrite result_bind.
    assert (result (leg sp [nearest lon lat; nearest lon lat] [] 0)
            = inr [nearest lon lat]) as ->; [|done].
    unfold leg, call_shortest_path. unmonad.
    rewrite (getitem_Some [nearest lon lat; nearest lon lat] 0 _ eq_refl), bind_ret.
    rewrite (getitem_Some [nearest lon lat; nearest lon lat] (0 + 1) _ eq_refl),
      bind_ret.
    by rewrite Hsp.
  - done.
Qed.

Lemma C7_witness :
  resolver_tsp Demo.solver 1 [[0%Z]] = ret (Some [0; 0]) ∧
  ∃ r, result (main Demo.nearest_nodes Demo.shortest_path_length
                    Demo.shortest_path Demo.get_edge_data Demo.fl Demo.solver 1
                    ["A"%string] [(0, 0)%Q])
         = inr (Some r) ∧
       matriz r = [[0%Z]] ∧ rota_otimizada r = [0; 0] ∧
       distancia_total_metros r = 0%Q.
Proof.
  apply (C7_single_waypoint Demo.nearest_nodes Demo.shortest_path_length
           Demo.shortest_path Demo.get_edge_data Demo.fl Demo.solver Demo.em_ordem 1
           "A"%string 0%Q 0%Q).
  - reflexivity.
  - apply em_ordem_solution.
  - reflexivity.
  - lia.
Defined.

(** C8. In every run the nearest-node lookups are exactly one per waypoint,
    made in step 4 in the order of the waypoints, and nothing after step 4
    looks a node up again.  In a run that reaches the end every stage works
    on that one list [nos]: the matrix loop asks, for each cell [(i, j)] off
    the diagonal and in row order, for the length from [nos[i]] to [nos[j]]
    and stores its truncation in the cell; the node of tour stop [k] is
    [nos[rota_otimizada[k]]]; and the assembler asks, for each leg [k] in
    order, for the path from [rota_nos[k]] to [rota_nos[k+1]] and joins
    those paths.  Nothing else is asked of the graph but the edge data of
    the assembled pairs. *)
Theorem C8_one_lookup_one_mapping
        (nearest : Q → Q → node) (spl : node → node → option Q)
        (sp : node → node → option (list node))
        (ged : node → node → option (list edge_attr)) (fl : float_ops)
        (Solve : list (list Z) → option assignment)
        (fuel : nat) (enderecos : list string) (coordenadas : list coord) :
  let ns := (λ c : coord, nearest c.2 c.1) <$> coordenadas in
  let lookups := (λ c : coord, NearestNodes c.2 c.1) <$> coordenadas in
  let run := main nearest spl sp ged fl Solve fuel enderecos coordenadas in
  List.filter is_nearest (trace run) = lookups ∧
  (∃ rest, trace run = lookups ++ rest ∧ Forall (shared_nodes ns) rest) ∧
  ∀ r, result run = inr (Some r) →
       nos r = ns ∧
       result (matriz_de spl ns) = inr (matriz r) ∧
       Forall2 (λ i y, ns !! i = Some y) (rota_otimizada r) (rota_nos r) ∧
       (∀ i j, i ≠ j → i < length ns → j < length ns →
               ∃ a b q, ns !! i = Some a ∧ ns !! j = Some b ∧
                        spl a b = Some q ∧
                        getcell (matriz r) i j = Some (int q)) ∧
       (∃ ps, Forall2 (λ ab p, sp ab.1 ab.2 = Some p)
                      (pares (rota_nos r)) ps ∧
              rota_final r = foldl junta [] ps) ∧
       ∃ prints,
         Forall (λ e, ∃ l, e = Print l) prints ∧
         trace run
         = lookups
             ++ consultas ns (cells (length ns))
             ++ prints
             ++ ((λ ab : node * node, ShortestPath ab.1 ab.2)
                   <$> pares (rota_nos r))
             ++ ((λ uv : node * node, GetEdgeData uv.1 uv.2)
                   <$> pares (rota_final r))
             ++ [Print (LDistancia (distancia_total_km r))].
Proof.
  intros ns lookups run.
  destruct (main_trace nearest spl sp ged fl Solve fuel enderecos coordenadas)
    as (rest & Htrace & Hrest).
  fold run ns lookups in Htrace, Hrest. split; [|split].
  - rewrite Htrace, List.filter_app.
    assert (List.filter is_nearest lookups = lookups) as ->.
    { unfold lookups. clear. induction coordenadas as [|c cs IH]; [done|].
      rewrite fmap_cons. cbn [List.filter is_nearest]. by rewrite IH. }
    assert (List.filter is_nearest rest = []) as ->; [|by rewrite app_nil_r].
    clear Htrace. induction Hrest as [|e rest He _ IH]; [done|].
    simpl. rewrite IH. by destruct e.
  - by exists rest.
  - intros r Hr.
    destruct (main_trace_inr _ _ _ _ _ _ _ _ _ _ Hr) as (prints & Hprints & Hall).
    apply main_inr in Hr as (Hnos & Hm & _ & _ & Hrn & Hrf & _).
    fold ns in Hnos. fold run lookups in Hall. rewrite Hnos in Hm, Hrn, Hall.
    split; [done|]. split; [done|]. split; [by apply forM_getitem|].
    split; [|split].
    + intros i j Hne Hi Hj.
      destruct (matriz_de_run spl ns) as [(m & Hm' & _ & Hcells)|Hab];
        [|destruct Hab as (a & b & Habort & _); congruence].
      rewrite Hm in Hm'. injection Hm' as <-.
      specialize (Hcells i j Hi Hj). by rewrite decide_False in Hcells.
    + by apply rota_final_junta.
    + exists prints. split; [done|]. rewrite Hall.
      rewrite (rota_final_de_queries sp _ _ Hrf), distancia_de_reads.
      do 2 f_equal. rewrite matriz_de_cells in Hm |- *.
      by rewrite (cells_trace _ _ _ _ _ Hm).
Qed.

Lemma C8_witness :
  let ns := [1; 2; 3]%Z in
  let lookups := [NearestNodes 0 0; NearestNodes 1 1; NearestNodes 2 2] in
  List.filter is_nearest (trace (Demo.run 3)) = lookups ∧
  (∃ rest, trace (Demo.run 3) = lookups ++ rest ∧
           Forall (shared_nodes ns) rest) ∧
  ∀ r, result (Demo.run 3) = inr (Some r) →
       nos r = ns ∧
       result (matriz_de Demo.shortest_path_length ns) = inr (matriz r) ∧
       Forall2 (λ i y, ns !! i = Some y) (rota_otimizada r) (rota_nos r) ∧
       (∀ i j, i ≠ j → i < length ns → j < length ns →
               ∃ a b q, ns !! i = Some a ∧ ns !! j = Some b ∧
                        Demo.shortest_path_length a b = Some q ∧
                        getcell (matriz r) i j = Some (int q)) ∧
       (∃ ps, Forall2 (λ ab p, Demo.shortest_path ab.1 ab.2 = Some p)
                      (pares (rota_nos r)) ps ∧
              rota_final r = foldl junta [] ps) ∧
       ∃ prints,
         Forall (λ e, ∃ l, e = Print l) prints ∧
         trace (Demo.run 3)
         = lookups
             ++ consultas ns (cells (length ns))
             ++ prints
             ++ ((λ ab : node * node, ShortestPath ab.1 ab.2)
                   <$> pares (rota_nos r))
             ++ ((λ uv : node * node, GetEdgeData uv.1 uv.2)
                   <$> pares (rota_final r))
             ++ [Print (LDistancia (distancia_total_km r))].
Proof.
  exact (C8_one_lookup_one_mapping
           Demo.nearest_nodes Demo.shortest_path_length Demo.shortest_path
           Demo.get_edge_data Demo.fl Demo.solver 3 Demo.enderecos
           Demo.coordenadas).
Defined.

Lemma inject_Z_mult_mono (a b : nat) (c : Q) :
  a ≤ b → (0 <= c)%Q →
  (inject_Z (Z.of_nat a) * c <= inject_Z (Z.of_nat b) * c)%Q.
Proof.
  intros Hab Hc. apply Qmult_le_compat_r; [|done]. rewrite <- Zle_Qle. lia.
Qed.

Lemma Demo_arredonda_near q : (Qabs (Demo.arredonda q - q) <= 1 # 2048)%Q.
Proof.
  unfold Demo.arredonda. set (f := Qfloor (q * 1024 + (1 # 2))).
  pose proof (Qfloor_le (q * 1024 + (1 # 2))) as Hlo.
  pose proof (Qlt_floor (q * 1024 + (1 # 2))) as Hhi.
  fold f in Hlo, Hhi. rewrite inject_Z_plus in Hhi.
  change (inject_Z 1) with 1%Q in Hhi.
  assert (f # 1024 == inject_Z f * (1 # 1024))%Q as Hf.
  { unfold Qeq, Qmult, inject_Z. cbn [Qnum Qden]. lia. }
  apply Qabs_Qle_condition. split; lra.
Qed.

Lemma Demo_fadd_near (x y : Q) :
  (Qabs x <= 100 → Qabs y <= 100 →
   Qabs (fadd Demo.fl x y - (x + y)) <= 1 # 2048)%Q.
Proof. intros _ _. apply Demo_arredonda_near. Qed.

(** C3. In a run that reaches the end, the total distance summed along the
    assembled sequence differs from the sum of the matrix entries along the
    tour by less than [1 + eps] metres per leg and [delta] per addition:
    one metre for the truncation of a matrix entry, [eps] for the rounding
    between the shortest-path length the graph library reports and the
    edge-by-edge length (smallest parallel edge each time, as the library
    weighs a hop) of the path it returns, and [delta] for the rounding of
    each of the script's own additions, which are at most one per
    consecutive pair of the sequence.  The library is taken to return paths
    that run from the first node to the second and the one-node path from a
    node to itself, edges have no negative length, and the machine's
    addition is within [delta] of the exact sum on values up to [B], a
    bound the exact total with the rounding allowance stays under. *)
Theorem C3_total_close_to_matrix_cost
        (nearest : Q → Q → node) (spl : node → node → option Q)
        (sp : node → node → option (list node))
        (ged : node → node → option (list edge_attr)) (fl : float_ops)
        (Solve : list (list Z) → option assignment)
        (fuel : nat) (enderecos : list string) (coordenadas : list coord)
        (r : resultado) (eps delta B : Q) :
  (0 <= eps)%Q →
  (0 <= delta)%Q →
  (∀ a b p, sp a b = Some p → head p = Some a ∧ last p = Some b) →
  (∀ a b p q, sp a b = Some p → spl a b = Some q →
              (Qabs (q - Qsum (parcelas ged p)) <= eps)%Q) →
  (∀ a p, sp a a = Some p → p = [a]) →
  (∀ u v ds d, ged u v = Some ds → d ∈ ds → (0 <= attr_length d)%Q) →
  (∀ x y, Qabs x <= B → Qabs y <= B →
          Qabs (fadd fl x y - (x + y)) <= delta)%Q →
  result (main nearest spl sp ged fl Solve fuel enderecos coordenadas)
    = inr (Some r) →
  (Qsum (somadas ged (rota_final r))
   + inject_Z (Z.of_nat (length (rota_final r) - 1)) * delta <= B)%Q →
  1 ≤ length (rota_otimizada r) - 1 ∧
  (Qabs (distancia_total_metros r
         - inject_Z (custo (matriz r) (rota_otimizada r)))
   < inject_Z (Z.of_nat (length (rota_otimizada r) - 1)) * (1 + eps)
     + inject_Z (Z.of_nat (length (rota_final r) - 1)) * delta)%Q.
Proof.
  intros Heps Hdelta Hends Hlen Hsame Hnn Hfadd Hrun HB.
  apply main_inr in Hrun
    as (Hnos & Hm & Hrota & _ & Hrn & Hrf & Htotal & _).
  pose proof (resolver_tsp_inr_length _ _ _ _ Hrota) as Hlegs.
  split; [lia|].
  rewrite distancia_total in Htotal. injection Htotal as Htotal.
  (* the machine's sum against the exact sum of the amounts *)
  pose proof (length_somadas ged (rota_final r)) as Hcount.
  pose proof (inject_Z_mult_mono _ _ delta Hcount Hdelta) as Hmono.
  assert (Qabs (distancia_total_metros r - Qsum (somadas ged (rota_final r)))
          <= inject_Z (Z.of_nat (length (rota_final r) - 1)) * delta)%Q
    as Hround.
  { pose proof (fold_fadd_near fl delta B (somadas ged (rota_final r))
                  Hdelta Hfadd (somadas_nonneg ged _ Hnn) 0%Q 0%Q 0) as Hfold.
    cbn [Nat.add] in Hfold. rewrite Htotal in Hfold.
    assert (Qabs (distancia_total_metros r
                  - (0 + Qsum (somadas ged (rota_final r))))
            <= inject_Z (Z.of_nat (length (somadas ged (rota_final r))))
               * delta)%Q as Hf.
    { apply Hfold.
      - apply Qle_refl.
      - change (inject_Z (Z.of_nat 0)) with 0%Q.
        apply Qabs_Qle_condition. split; lra.
      - lra. }
    apply Qabs_Qle_condition in Hf. apply Qabs_Qle_condition. split; lra. }
  pose proof (Qsum_somadas ged (rota_final r)) as Hsum.
  (* the exact sum of the amounts against the matrix cost *)
  destruct (rota_final_weight ged sp Hends _ _ Hrf) as [Hpaths Hweight].
  apply forM_getitem in Hrn.
  pose proof (Forall2_length _ _ _ Hrn) as Hlenrn.
  pose proof (pares_Forall2 _ _ _ Hrn) as Hpares. cbv beta in Hpares.
  destruct (matriz_de_run spl (nos r)) as [(m & Hm' & _ & Hcells)|Hab];
    [|destruct Hab as (a & b & Hr & _); congruence].
  rewrite Hm in Hm'. injection Hm' as <-.
  assert (Forall2 (λ x z, (Qabs (x - inject_Z z) < 1 + eps)%Q)
            (peso_caminho ged sp <$> pares (rota_nos r))
            ((λ ij : nat * nat, default 0%Z (getcell (matriz r) ij.1 ij.2))
               <$> pares (rota_otimizada r))) as Hnear.
  { apply Forall2_fmap, Forall2_flip.
    eapply Forall2_impl; [apply (Forall2_with_r _ _ _ _ Hpares Hpaths)|].
    intros [i j] [a b] [[Hi Hj] [p Hp]]. cbn [fst snd] in Hi, Hj, Hp.
    unfold peso_caminho. cbn [fst snd]. rewrite Hp.
    specialize (Hcells i j (lookup_lt_Some _ _ _ Hi) (lookup_lt_Some _ _ _ Hj)).
    destruct (decide (i = j)) as [->|Hne].
    - rewrite Hcells. assert (a = b) as -> by congruence.
      rewrite (Hsame b p Hp).
      change (default 0%Z (Some 0%Z)) with 0%Z.
      change (parcelas ged [b]) with (@nil Q). rewrite Qsum_nil.
      change (inject_Z 0) with 0%Q. apply Qabs_Qlt_condition. lra.
    - destruct Hcells as (a' & b' & q & Ha' & Hb' & Hq & ->).
      change (default 0%Z (Some (int q))) with (int q).
      assert (a' = a) as -> by congruence. assert (b' = b) as -> by congruence.
      pose proof (Hlen a b p q Hp Hq) as Hpq. pose proof (int_near q) as Hq'.
      apply Qabs_Qlt_condition in Hq'. apply Qabs_Qle_condition in Hpq.
      apply Qabs_Qlt_condition. lra. }
  destruct (Qsum_near _ _ _ Hnear) as [Hnil|Hbound].
  - apply (f_equal length) in Hnil.
    rewrite length_fmap, length_pares in Hnil. simpl in Hnil. lia.
  - rewrite length_fmap, length_pares, <- Hlenrn in Hbound.
    unfold custo. apply Qabs_Qlt_condition in Hbound.
    apply Qabs_Qle_condition in Hround.
    apply Qabs_Qlt_condition. split; lra.
Qed.

Lemma C3_witness :
  1 ≤ length (rota_otimizada Demo.fim) - 1 ∧
  (Qabs (distancia_total_metros Demo.fim
         - inject_Z (custo (matriz Demo.fim) (rota_otimizada Demo.fim)))
   < inject_Z (Z.of_nat (length (rota_otimizada Demo.fim) - 1)) * (1 + 0)
     + inject_Z (Z.of_nat (length (rota_final Demo.fim) - 1)) * (1 # 2048))%Q.
Proof.
  apply (C3_total_close_to_matrix_cost
           Demo.nearest_nodes Demo.shortest_path_length Demo.shortest_path
           Demo.get_edge_data Demo.fl Demo.solver 3 Demo.enderecos
           Demo.coordenadas Demo.fim 0%Q (1 # 2048)%Q 100%Q).
  - apply Qle_refl.
  - vm_compute. done.
  - apply Demo_paths_ends.
  - apply Demo_paths_weigh_their_length.
  - apply Demo_path_to_self.
  - apply Demo_lengths_of_edges_nonneg.
  - apply Demo_fadd_near.
  - apply Demo_run_fim.
  - vm_compute. done.
Defined.
